(** * gosvg: the SVG tree builder and its renderer, embedded in Rocq

    The development follows [svg.go]: attribute bundles, the path command
    encoder, the node tree (a store of objects linked by pointers, as the Go
    code links them) and the recursive renderer writing to an [io.Writer]. *)

From Stdlib Require Import ZArith Ascii String List Lia.
From Stdlib Require Import Numbers.DecimalString.
From stdpp Require Import base option list gmap strings.

Local Open Scope string_scope.
Local Open Scope list_scope.

(** ** Pieces of the Go runtime and standard library the package calls *)

(** [strings.Join(elems, sep)]. *)
Definition strings_Join (elems : list string) (sep : string) : string :=
  String.concat sep elems.

(** The one-byte string holding a line feed. *)
Definition nl : string := String (ascii_of_nat 10) EmptyString.

(** The one-byte string holding a double quote. *)
Definition dq : string := String (ascii_of_nat 34) EmptyString.

(** Go's [range] over a map visits the entries in an order the language
    leaves unspecified, and the order may change from one loop to the next.
    An execution is modelled with the order it happens to pick at every
    loop: the [n]-th map loop of the execution visits [m] in the order
    [order_at n m], some permutation of the entries of [m]. *)
Record map_order := MapOrder {
  order_at :> nat -> gmap string string -> list (string * string);
  order_perm : forall n m, order_at n m ≡ₚ map_to_list m
}.

(** The executions in which every loop follows the order of [map_to_list]. *)
Definition order_id : map_order :=
  MapOrder (fun _ m => map_to_list m) (fun _ _ => reflexivity _).

(** The executions in which every other loop runs backwards. *)
Definition order_alt : map_order :=
  MapOrder
    (fun n m => if Nat.even n then map_to_list m else reverse (map_to_list m))
    (fun n m =>
       match Nat.even n as b
         return (if b then map_to_list m else reverse (map_to_list m))
                ≡ₚ map_to_list m
       with
       | true => reflexivity _
       | false => reverse_Permutation _
       end).

(** The [%g] verb of [fmt.Sprintf] on the integer-valued [float64] numbers of
    magnitude at most 2^53, each represented by the integer it holds: plain
    digits below 10^6, otherwise the shortest mantissa and a two-digit (at
    least) exponent.  Used for the concrete examples only. *)
Definition digits_of (n : N) : string :=
  NilEmpty.string_of_uint (N.to_uint n).

Fixpoint strip_zeros_rev (s : list ascii) : list ascii :=
  match s with
  | "0"%char :: s' => strip_zeros_rev s'
  | _ => s
  end.

Definition mantissa_of (ds : string) : string :=
  match rev (strip_zeros_rev (rev (list_ascii_of_string ds))) with
  | [] => "0"
  | [d] => String d EmptyString
  | d :: frac => String d ("." +:+ string_of_list_ascii frac)
  end.

Definition fmt_g_int (z : Z) : string :=
  let ds := match Z.abs_N z with 0%N => "0" | n => digits_of n end in
  let sign := if (z <? 0)%Z then "-" else "" in
  let e := (String.length ds - 1)%nat in
  if (e <? 6)%nat then sign +:+ ds
  else sign +:+ mantissa_of ds +:+ "e+"
       +:+ (if (e <? 10)%nat then "0" else "") +:+ digits_of (N.of_nat e).

(** [float64] values are only stored and printed by the package, and
    [error] values only passed on: the two types, the zero of [float64] and
    the [%g] verb of [fmt.Sprintf] are taken as given. *)
Class Runtime := {
  float64 : Type;
  fmt_g : float64 -> string;
  f0 : float64;
  error : Type
}.

(** The integer-valued numbers with [fmt_g_int], and texts as errors. *)
Definition Ints : Runtime :=
  {| float64 := Z; fmt_g := fmt_g_int; f0 := 0%Z; error := string |}.

(** ** The package *)

(** Addresses of the values in the store. *)
Abbreviation ptr := nat (only parsing).

Section Gosvg.

Context `{Runtime}.

(** *** Attribute helpers *)

Definition floatAttr (name : string) (val : float64) : string :=
  name +:+ "=" +:+ dq +:+ fmt_g val +:+ dq.

Definition boolAttr (name : string) (val : bool) : string :=
  let valStr := if val then "true" else "false" in
  name +:+ "=" +:+ dq +:+ valStr +:+ dq.

Definition stringAttr (name : string) (val : string) : string :=
  name +:+ "=" +:+ dq +:+ val +:+ dq.

(** *** Path commands *)

Record Point := mkPoint { Point_X : float64; Point_Y : float64 }.

Definition Point_coordString (p : Point) : string :=
  fmt_g (Point_X p) +:+ "," +:+ fmt_g (Point_Y p).

Record CCurve := mkCCurve {
  CCurve_X1 : float64; CCurve_Y1 : float64;
  CCurve_X2 : float64; CCurve_Y2 : float64;
  CCurve_X : float64; CCurve_Y : float64 }.

Record SCurve := mkSCurve {
  SCurve_X2 : float64; SCurve_Y2 : float64;
  SCurve_X : float64; SCurve_Y : float64 }.

Record QCurve := mkQCurve {
  QCurve_X1 : float64; QCurve_Y1 : float64;
  QCurve_X : float64; QCurve_Y : float64 }.

(** The implementations of the [cmdBody] interface. *)
Inductive cmdBody :=
| mCmd (pts : list Point)
| zCmd
| elCmd (pts : list Point) (isAbs : bool)
| hCmd (xs : list float64) (isAbs : bool)
| vCmd (ys : list float64) (isAbs : bool)
| cCmd (cvs : list CCurve) (isAbs : bool)
| sCmd (cvs : list SCurve) (isAbs : bool)
| qCmd (cvs : list QCurve) (isAbs : bool)
| tCmd (pts : list Point) (isAbs : bool).

(** Each [strings()] method appends, for every argument group in turn, the
    group's numbers to [out]. *)
Definition point_strings (out : list string) (p : Point) : list string :=
  out ++ [fmt_g (Point_X p); fmt_g (Point_Y p)].

Definition cmdBody_strings (b : cmdBody) : list string :=
  match b with
  | mCmd pts => fold_left point_strings pts []
  | zCmd => []
  | elCmd pts _ => fold_left point_strings pts []
  | hCmd xs _ => fold_left (fun out x => out ++ [fmt_g x]) xs []
  | vCmd ys _ => fold_left (fun out y => out ++ [fmt_g y]) ys []
  | cCmd cvs _ =>
      fold_left (fun out cv =>
        out ++ [fmt_g (CCurve_X1 cv); fmt_g (CCurve_Y1 cv);
                fmt_g (CCurve_X2 cv); fmt_g (CCurve_Y2 cv);
                fmt_g (CCurve_X cv); fmt_g (CCurve_Y cv)]) cvs []
  | sCmd cvs _ =>
      fold_left (fun out cv =>
        out ++ [fmt_g (SCurve_X2 cv); fmt_g (SCurve_Y2 cv);
                fmt_g (SCurve_X cv); fmt_g (SCurve_Y cv)]) cvs []
  | qCmd cvs _ =>
      fold_left (fun out cv =>
        out ++ [fmt_g (QCurve_X1 cv); fmt_g (QCurve_Y1 cv);
                fmt_g (QCurve_X cv); fmt_g (QCurve_Y cv)]) cvs []
  | tCmd pts _ => fold_left point_strings pts []
  end.

Record cmd := mkCmd { cmd_name : string; cmd_body : cmdBody }.

(** *** Attribute bundles *)

(** [type valueMap map[string]string]: the nil map, or an allocated one. *)
Definition valueMap : Type := option (gmap string string).

(** The three methods have a pointer receiver: each returns the map the
    receiver holds afterwards. *)
Definition valueMap_Get (m : valueMap) (k : string) : string * valueMap :=
  let m' := match m with None => ∅ | Some m0 => m0 end in
  (default "" (m' !! k), Some m').

Definition valueMap_Set (m : valueMap) (k v : string) : valueMap :=
  let m' := match m with None => ∅ | Some m0 => m0 end in
  Some (<[k := v]> m').

Definition valueMap_Unset (m : valueMap) (k : string) : valueMap :=
  let m' := match m with None => ∅ | Some m0 => m0 end in
  Some (delete k m').

Record Style := mkStyle { Style_valueMap : valueMap }.

(** The methods of the embedded [valueMap], promoted to [Style]. *)
Definition Style_Get (s : Style) (k : string) : string * Style :=
  let '(v, m) := valueMap_Get (Style_valueMap s) k in (v, mkStyle m).

Definition Style_Set (s : Style) (k v : string) : Style :=
  mkStyle (valueMap_Set (Style_valueMap s) k v).

Definition Style_Unset (s : Style) (k : string) : Style :=
  mkStyle (valueMap_Unset (Style_valueMap s) k).

Section Exec.

(** Code that loops over maps: it runs in an execution [range] and passes
    along the number of map loops run so far. *)
Variable range : map_order.

Definition exec (A : Type) : Type := nat -> A * nat.

Definition exec_ret {A} (a : A) : exec A := fun n => (a, n).

Definition exec_bind {A B} (m : exec A) (f : A -> exec B) : exec B :=
  fun n => let '(a, n') := m n in f a n'.

(** The body of the loop of [Style.attrString], for one entry. *)
Definition style_entry (outs : list string) (kv : string * string) : list string :=
  outs ++ [fst kv +:+ ":" +:+ snd kv].

Definition Style_attrString (s : Style) : exec string :=
  fun n =>
    match Style_valueMap s with
    | None => ("", n)
    | Some m =>
        let outs := fold_left style_entry (range n m) [] in
        let out := strings_Join outs ";" in
        ("style=" +:+ dq +:+ out +:+ dq, S n)
    end.

Record Transform := mkTransform { transforms : list string }.

Definition Transform_Matrix (t : Transform) (a b c d e f : float64) : Transform :=
  let out := "matrix(" +:+ fmt_g a +:+ "," +:+ fmt_g b +:+ "," +:+ fmt_g c +:+ ","
             +:+ fmt_g d +:+ "," +:+ fmt_g e +:+ "," +:+ fmt_g f +:+ ")" in
  mkTransform (transforms t ++ [out]).

Definition Transform_Translate (t : Transform) (tx ty : float64) : Transform :=
  let out := "translate(" +:+ fmt_g tx +:+ "," +:+ fmt_g ty +:+ ")" in
  mkTransform (transforms t ++ [out]).

Definition Transform_Scale (t : Transform) (sx sy : float64) : Transform :=
  let out := "scale(" +:+ fmt_g sx +:+ "," +:+ fmt_g sy +:+ ")" in
  mkTransform (transforms t ++ [out]).

Definition Transform_Rotate (t : Transform) (angle cx cy : float64) : Transform :=
  let out := "rotate(" +:+ fmt_g angle +:+ "," +:+ fmt_g cx +:+ "," +:+ fmt_g cy +:+ ")" in
  mkTransform (transforms t ++ [out]).

Definition Transform_SkewX (t : Transform) (angle : float64) : Transform :=
  let out := "skewX(" +:+ fmt_g angle +:+ ")" in
  mkTransform (transforms t ++ [out]).

Definition Transform_SkewY (t : Transform) (angle : float64) : Transform :=
  let out := "skewY(" +:+ fmt_g angle +:+ ")" in
  mkTransform (transforms t ++ [out]).

Definition Transform_attrString (t : Transform) : string :=
  let out := strings_Join (transforms t) " " in
  "transform=" +:+ dq +:+ out +:+ dq.

Record ViewBox := mkViewBox {
  minX : float64; minY : float64; width : float64; height : float64;
  isSet : bool }.

Definition ViewBox_Set (v : ViewBox) (minX' minY' width' height' : float64) : ViewBox :=
  mkViewBox minX' minY' width' height' true.

Definition ViewBox_attrString (v : ViewBox) : string :=
  if negb (isSet v) then ""
  else
    let out := fmt_g (minX v) +:+ " " +:+ fmt_g (minX v) +:+ " "
               +:+ fmt_g (width v) +:+ " " +:+ fmt_g (height v) in
    "viewBox=" +:+ dq +:+ out +:+ dq.

Record BaseAttrs := mkBaseAttrs {
  BaseAttrs_Style : Style;
  ExternalResourcesRequired : bool;
  Class : string }.

Definition BaseAttrs_attrStrings (a : BaseAttrs) : exec (list string) :=
  let extString :=
    if ExternalResourcesRequired a
    then boolAttr "externalResourcesRequired" (ExternalResourcesRequired a)
    else "" in
  exec_bind (Style_attrString (BaseAttrs_Style a)) (fun style =>
  exec_ret [style; extString; Class a]).

Record ShapeAttrs := mkShapeAttrs {
  ShapeAttrs_BaseAttrs : BaseAttrs;
  ShapeAttrs_Transform : Transform }.

Definition ShapeAttrs_attrStrings (a : ShapeAttrs) : exec (list string) :=
  exec_bind (BaseAttrs_attrStrings (ShapeAttrs_BaseAttrs a)) (fun base =>
  exec_ret (base ++ [Transform_attrString (ShapeAttrs_Transform a)])).

(** *** The path element and its encoder *)

Record Path := mkPath {
  Path_ShapeAttrs : ShapeAttrs;
  d : list cmd;
  PathLength : float64 }.

Definition Path_addCmd (p : Path) (name : string) (body : cmdBody) : Path :=
  mkPath (Path_ShapeAttrs p) (d p ++ [mkCmd name body]) (PathLength p).

(** The builder methods; each returns the receiver, here the updated path.
    None of them sets [isAbs]: the letter's case carries the addressing. *)
Definition Path_Ma p (pts : list Point) := Path_addCmd p "M" (mCmd pts).
Definition Path_Mr p (pts : list Point) := Path_addCmd p "m" (mCmd pts).
Definition Path_Z p := Path_addCmd p "z" zCmd.
Definition Path_La p (pts : list Point) := Path_addCmd p "L" (elCmd pts false).
Definition Path_Lr p (pts : list Point) := Path_addCmd p "l" (elCmd pts false).
Definition Path_Ha p (xs : list float64) := Path_addCmd p "H" (hCmd xs false).
Definition Path_Hr p (xs : list float64) := Path_addCmd p "h" (hCmd xs false).
Definition Path_Va p (ys : list float64) := Path_addCmd p "V" (vCmd ys false).
Definition Path_Vr p (ys : list float64) := Path_addCmd p "v" (vCmd ys false).
Definition Path_Ca p (cvs : list CCurve) := Path_addCmd p "C" (cCmd cvs false).
Definition Path_Cr p (cvs : list CCurve) := Path_addCmd p "c" (cCmd cvs false).
Definition Path_Sa p (cvs : list SCurve) := Path_addCmd p "S" (sCmd cvs false).
Definition Path_Sr p (cvs : list SCurve) := Path_addCmd p "s" (sCmd cvs false).
Definition Path_Qa p (cvs : list QCurve) := Path_addCmd p "Q" (qCmd cvs false).
Definition Path_Qr p (cvs : list QCurve) := Path_addCmd p "q" (qCmd cvs false).
Definition Path_Ta p (cvs : list Point) := Path_addCmd p "T" (tCmd cvs false).
Definition Path_Tr p (cvs : list Point) := Path_addCmd p "t" (tCmd cvs false).

(** The state of the two loops of [pathStr]: [outs] and [accumLen].
    [accumLen] is a Go [int]; it never exceeds 255 plus the length of one
    token, far from the 64-bit limit, so it is a natural number here. *)
Definition pathStr_state : Type := list string * nat.

(** The body of the inner loop, for one string [s] of the command body. *)
Definition pathStr_body (st : pathStr_state) (s : string) : pathStr_state :=
  let '(outs, accumLen) := st in
  let accumLen := accumLen + String.length s in
  if (255 <? accumLen)%nat then (outs ++ [nl; s], 0)
  else (outs ++ [" "; s], accumLen).

(** The body of the outer loop, for one command. *)
Definition pathStr_cmd (st : pathStr_state) (c : cmd) : pathStr_state :=
  let '(outs, accumLen) := st in
  let accumLen := S accumLen in
  let st' := if (255 <? accumLen)%nat then (outs ++ [nl; cmd_name c], 0)
             else (outs ++ [" "; cmd_name c], accumLen) in
  fold_left pathStr_body (cmdBody_strings (cmd_body c)) st'.

Definition Path_pathStr (p : Path) : string :=
  let '(outs, _) := fold_left pathStr_cmd (d p) ([], 0) in
  let outs := match outs with [] => outs | _ :: outs' => outs' end in
  strings_Join outs "".

Definition Path_attrStrings (p : Path) : exec (list string) :=
  let pathStr := Path_pathStr p in
  let pathAttr := stringAttr "d" pathStr in
  exec_bind (ShapeAttrs_attrStrings (Path_ShapeAttrs p)) (fun attrs =>
  exec_ret (attrs ++ [pathAttr])).

(** *** The node tree *)

(** Nodes live in a store and refer to each other by address, as the Go
    values do through pointers; an address ([ptr]) is an index into the
    store ([heap]). *)

Record container := mkContainer { name : string; contents : list ptr }.

Record SVG := mkSVG {
  SVG_BaseAttrs : BaseAttrs;
  SVG_container : container;
  SVG_ViewBox : ViewBox;
  SVG_Width : float64;
  SVG_Height : float64;
  SVG_X : float64;
  SVG_Y : float64 }.

Record Group := mkGroup {
  Group_ShapeAttrs : ShapeAttrs;
  Group_container : container }.

Record Circle := mkCircle {
  Circle_ShapeAttrs : ShapeAttrs;
  Circle_Cx : float64; Circle_Cy : float64; Circle_R : float64 }.

Record Ellipse := mkEllipse {
  Ellipse_ShapeAttrs : ShapeAttrs;
  Ellipse_Cx : float64; Ellipse_Cy : float64;
  Ellipse_Rx : float64; Ellipse_Ry : float64 }.

Record Rect := mkRect {
  Rect_ShapeAttrs : ShapeAttrs;
  Rect_Width : float64; Rect_Height : float64;
  Rect_X : float64; Rect_Y : float64 }.

Record Polygon := mkPolygon {
  Polygon_ShapeAttrs : ShapeAttrs;
  Polygon_Points : list Point }.

Record Polyline := mkPolyline {
  Polyline_ShapeAttrs : ShapeAttrs;
  Polyline_Points : list Point }.

Record Line := mkLine {
  Line_ShapeAttrs : ShapeAttrs;
  Line_X1 : float64; Line_X2 : float64;
  Line_Y1 : float64; Line_Y2 : float64 }.

(** The values a [renderable] can point to. *)
Inductive object :=
| OSVG (s : SVG)
| OGroup (g : Group)
| OCircle (c : Circle)
| OEllipse (e : Ellipse)
| ORect (r : Rect)
| OPolygon (p : Polygon)
| OPolyline (p : Polyline)
| OLine (n : Line)
| OPath (p : Path).

Local Abbreviation heap := (list object).

(** Zero values of the attribute bundles. *)
Definition BaseAttrs_zero : BaseAttrs := mkBaseAttrs (mkStyle None) false "".
Definition ShapeAttrs_zero : ShapeAttrs := mkShapeAttrs BaseAttrs_zero (mkTransform []).
Definition ViewBox_zero : ViewBox := mkViewBox f0 f0 f0 f0 false.

(** *** Attribute sequences of the nodes *)

Definition SVG_attrStrings (s : SVG) : exec (list string) :=
  exec_bind (BaseAttrs_attrStrings (SVG_BaseAttrs s)) (fun base =>
  let viewBox := ViewBox_attrString (SVG_ViewBox s) in
  let width := floatAttr "width" (SVG_Width s) in
  let height := floatAttr "height" (SVG_Height s) in
  let x := floatAttr "x" (SVG_X s) in
  let y := floatAttr "y" (SVG_Y s) in
  let xmlns := stringAttr "xmlns" "http://www.w3.org/2000/svg" in
  exec_ret (base ++ [viewBox; width; height; x; y; xmlns])).

(** [Group] has no [attrStrings] of its own: the call reaches the method of
    the embedded [ShapeAttrs]. *)
Definition Group_attrStrings (g : Group) : exec (list string) :=
  ShapeAttrs_attrStrings (Group_ShapeAttrs g).

Definition Circle_attrStrings (c : Circle) : exec (list string) :=
  let cx := floatAttr "cx" (Circle_Cx c) in
  let cy := floatAttr "cy" (Circle_Cy c) in
  let r := floatAttr "r" (Circle_R c) in
  exec_bind (ShapeAttrs_attrStrings (Circle_ShapeAttrs c)) (fun attrs =>
  exec_ret (attrs ++ [cx; cy; r])).

Definition Ellipse_attrStrings (e : Ellipse) : exec (list string) :=
  let cx := floatAttr "cx" (Ellipse_Cx e) in
  let cy := floatAttr "cy" (Ellipse_Cy e) in
  let rx := floatAttr "rx" (Ellipse_Rx e) in
  let ry := floatAttr "ry" (Ellipse_Ry e) in
  exec_bind (ShapeAttrs_attrStrings (Ellipse_ShapeAttrs e)) (fun attrs =>
  exec_ret (attrs ++ [cx; cy; rx; ry])).

Definition Rect_attrStrings (r : Rect) : exec (list string) :=
  let w := floatAttr "width" (Rect_Width r) in
  let h := floatAttr "height" (Rect_Height r) in
  let x := floatAttr "x" (Rect_X r) in
  let y := floatAttr "y" (Rect_Y r) in
  exec_bind (ShapeAttrs_attrStrings (Rect_ShapeAttrs r)) (fun attrs =>
  exec_ret (attrs ++ [w; h; x; y])).

Definition points_attr (pts : list Point) : string :=
  let pointStrs := fold_left (fun strs pt => strs ++ [Point_coordString pt]) pts [] in
  let pointStr := strings_Join pointStrs " " in
  stringAttr "points" pointStr.

Definition Polygon_attrStrings (p : Polygon) : exec (list string) :=
  let pointAttr := points_attr (Polygon_Points p) in
  exec_bind (ShapeAttrs_attrStrings (Polygon_ShapeAttrs p)) (fun attrs =>
  exec_ret (attrs ++ [pointAttr])).

Definition Polyline_attrStrings (p : Polyline) : exec (list string) :=
  let pointAttr := points_attr (Polyline_Points p) in
  exec_bind (ShapeAttrs_attrStrings (Polyline_ShapeAttrs p)) (fun attrs =>
  exec_ret (attrs ++ [pointAttr])).

Definition Line_attrStrings (n : Line) : exec (list string) :=
  let x1 := floatAttr "x1" (Line_X1 n) in
  let y1 := floatAttr "y1" (Line_Y1 n) in
  let x2 := floatAttr "x2" (Line_X2 n) in
  let y2 := floatAttr "y2" (Line_Y2 n) in
  exec_bind (ShapeAttrs_attrStrings (Line_ShapeAttrs n)) (fun attrs =>
  exec_ret (attrs ++ [x1; y1; x2; y2])).

(** *** Construction *)

(** [&T{...}]: the new value takes the next free address. *)
Definition alloc (o : object) (h : heap) : ptr * heap := (length h, h ++ [o]).

(** The [container] embedded in the value at an address, when its type
    embeds one. *)
Definition object_container (o : object) : option container :=
  match o with
  | OSVG s => Some (SVG_container s)
  | OGroup g => Some (Group_container g)
  | _ => None
  end.

Definition object_set_container (o : object) (c : container) : object :=
  match o with
  | OSVG s => OSVG (mkSVG (SVG_BaseAttrs s) c (SVG_ViewBox s) (SVG_Width s)
                          (SVG_Height s) (SVG_X s) (SVG_Y s))
  | OGroup g => OGroup (mkGroup (Group_ShapeAttrs g) c)
  | _ => o
  end.

(** [c.contents = append(c.contents, r)], for the container embedded in the
    value at [c].  There is no result when [c] holds no container. *)
Definition append_contents (c r : ptr) (h : heap) : option heap :=
  match h !! c with
  | Some o =>
      match object_container o with
      | Some k =>
          Some (<[c := object_set_container o
                         (mkContainer (name k) (contents k ++ [r]))]> h)
      | None => None
      end
  | None => None
  end.

(** A construction method of [container]: allocate the child, append its
    address to the contents of the receiver, return the address. *)
Definition container_add (c : ptr) (o : object) (h : heap) : option (ptr * heap) :=
  let '(r, h1) := alloc o h in
  match append_contents c r h1 with
  | Some h2 => Some (r, h2)
  | None => None
  end.

Definition container_SVG (c : ptr) (x y w h' : float64) : heap -> option (ptr * heap) :=
  container_add c
    (OSVG (mkSVG BaseAttrs_zero (mkContainer "svg" []) ViewBox_zero w h' x y)).

Definition container_Circle (c : ptr) (cx cy r : float64) : heap -> option (ptr * heap) :=
  container_add c (OCircle (mkCircle ShapeAttrs_zero cx cy r)).

Definition container_Ellipse (c : ptr) (cx cy rx ry : float64) : heap -> option (ptr * heap) :=
  container_add c (OEllipse (mkEllipse ShapeAttrs_zero cx cy rx ry)).

Definition container_Rect (c : ptr) (x y w h' : float64) : heap -> option (ptr * heap) :=
  container_add c (ORect (mkRect ShapeAttrs_zero w h' x y)).

Definition container_Polygon (c : ptr) (pts : list Point) : heap -> option (ptr * heap) :=
  container_add c (OPolygon (mkPolygon ShapeAttrs_zero pts)).

Definition container_Polyline (c : ptr) (pts : list Point) : heap -> option (ptr * heap) :=
  container_add c (OPolyline (mkPolyline ShapeAttrs_zero pts)).

Definition container_Line (c : ptr) (x1 y1 x2 y2 : float64) : heap -> option (ptr * heap) :=
  container_add c (OLine (mkLine ShapeAttrs_zero x1 x2 y1 y2)).

Definition container_Path (c : ptr) : heap -> option (ptr * heap) :=
  container_add c (OPath (mkPath ShapeAttrs_zero [] f0)).

(** [Group] is declared on [*SVG], not on [*container]: the receiver has to
    be an [SVG]. *)
Definition SVG_Group (c : ptr) (h : heap) : option (ptr * heap) :=
  match h !! c with
  | Some (OSVG _) =>
      container_add c (OGroup (mkGroup ShapeAttrs_zero (mkContainer "g" []))) h
  | _ => None
  end.

Definition NewSVG (width' height' : float64) (h : heap) : ptr * heap :=
  alloc (OSVG (mkSVG BaseAttrs_zero (mkContainer "svg" []) ViewBox_zero
                     width' height' f0 f0)) h.

(** *** Rendering *)

Section Sink.

(** An [io.Writer]: its state and its [Write] method, which reports an
    error or none and leaves the writer in a new state.  The byte count
    [Write] also returns is dropped by every caller. *)
Variable W : Type.
Variable Write : W -> string -> option error * W.

(** A rendering step runs on a writer, in an execution that has run some
    number of map loops; it ends with the error it returns (or none), or it
    has no result: the fuel ran out, or an address holds no value. *)
Definition io : Type := W -> nat -> option (option error * W * nat).

(** The common shape of the [render] methods of the leaves: the attribute
    sequence, joined, inside the tag, in one [Write]. *)
Definition leaf_render (tag : string) (attrStrings : exec (list string)) : io :=
  fun w n =>
    let '(attrStrings, n) := attrStrings n in
    let attrString := strings_Join attrStrings " " in
    let out := "<" +:+ tag +:+ " " +:+ attrString +:+ "/>" in
    let '(err, w) := Write w out in
    Some (err, w, n).

Definition Circle_render (c : Circle) : io := leaf_render "circle" (Circle_attrStrings c).
Definition Ellipse_render (e : Ellipse) : io := leaf_render "ellipse" (Ellipse_attrStrings e).
Definition Rect_render (r : Rect) : io := leaf_render "rect" (Rect_attrStrings r).
Definition Polygon_render (p : Polygon) : io := leaf_render "polygon" (Polygon_attrStrings p).
Definition Polyline_render (p : Polyline) : io := leaf_render "polyline" (Polyline_attrStrings p).
Definition Line_render (n : Line) : io := leaf_render "line" (Line_attrStrings n).
Definition Path_render (p : Path) : io := leaf_render "path" (Path_attrStrings p).

(** The loop of [container.render] over the contents; [render] is the
    dynamic call [r.render(w)]. *)
Fixpoint render_contents (render : ptr -> io) (rs : list ptr) : io :=
  fun w n =>
    match rs with
    | [] => Some (None, w, n)
    | r :: rs' =>
        match render r w n with
        | Some (None, w', n') => render_contents render rs' w' n'
        | Some (Some err, w', n') => Some (Some err, w', n')
        | None => None
        end
    end.

Definition container_render (render : ptr -> io) (c : container)
    (attrs : list string) : io :=
  fun w n =>
    let attrString := strings_Join attrs " " in
    let opening := "<" +:+ name c +:+ " " +:+ attrString +:+ ">" in
    match Write w opening with
    | (Some err, w1) => Some (Some err, w1, n)
    | (None, w1) =>
        match render_contents render (contents c) w1 n with
        | Some (None, w2, n2) =>
            let closing := "</" +:+ name c +:+ ">" in
            match Write w2 closing with
            | (Some err, w3) => Some (Some err, w3, n2)
            | (None, w3) => Some (None, w3, n2)
            end
        | Some (Some err, w2, n2) => Some (Some err, w2, n2)
        | None => None
        end
    end.

Definition SVG_render (render : ptr -> io) (s : SVG) : io :=
  fun w n =>
    let '(attrStrings, n) := SVG_attrStrings s n in
    container_render render (SVG_container s) attrStrings w n.

Definition Group_render (render : ptr -> io) (g : Group) : io :=
  fun w n =>
    let '(attrStrings, n) := Group_attrStrings g n in
    container_render render (Group_container g) attrStrings w n.

(** [r.render(w)] for the value at address [r]: the method of its type. *)
Fixpoint render (fuel : nat) (h : heap) (r : ptr) : io :=
  match fuel with
  | 0 => fun _ _ => None
  | S fuel' =>
      match h !! r with
      | Some (OSVG s) => SVG_render (render fuel' h) s
      | Some (OGroup g) => Group_render (render fuel' h) g
      | Some (OCircle c) => Circle_render c
      | Some (OEllipse e) => Ellipse_render e
      | Some (ORect r') => Rect_render r'
      | Some (OPolygon p) => Polygon_render p
      | Some (OPolyline p) => Polyline_render p
      | Some (OLine n) => Line_render n
      | Some (OPath p) => Path_render p
      | None => fun _ _ => None
      end
  end.

(** The two entry points, on the [SVG] at address [s].  A store of [k]
    values nests at most [k] deep, hence the fuel. *)
Definition SVG_RenderFragment (h : heap) (s : ptr) : io :=
  match h !! s with
  | Some (OSVG _) => render (length h) h s
  | _ => fun _ _ => None
  end.

Definition SVG_Render (h : heap) (s : ptr) : io :=
  fun w n =>
    match h !! s with
    | Some (OSVG _) =>
        let top := "<?xml version=" +:+ dq +:+ "1.0" +:+ dq +:+ "?>" in
        match Write w top with
        | (Some err, w1) => Some (Some err, w1, n)
        | (None, w1) => render (length h) h s w1 n
        end
    | _ => None
    end.

End Sink.

(** *** Writers *)

(** A writer like [bytes.Buffer]: every [Write] appends and succeeds. *)
Definition buffer_Write (b s : string) : option error * string :=
  (None, b +:+ s).

(** A writer that keeps apart the strings handed to it. *)
Definition log_Write (l : list string) (s : string) : option error * list string :=
  (None, l ++ [s]).

(** A writer with room for [q] more bytes: a string that fits is appended;
    of one that does not, the part that fits is appended and [e] is
    reported. *)
Definition quota_Write (e : error) (st : nat * string) (s : string)
    : option error * (nat * string) :=
  let '(q, b) := st in
  if (String.length s <=? q)%nat then (None, ((q - String.length s)%nat, b +:+ s))
  else (Some e, (0, b +:+ substring 0 q s)).

(** Handing the strings [cs] to a writer one after the other, up to the
    first error. *)
Fixpoint write_all {W : Type} (Write : W -> string -> option error * W)
    (cs : list string) (w : W) : option error * W :=
  match cs with
  | [] => (None, w)
  | c :: cs' =>
      match Write w c with
      | (Some e, w') => (Some e, w')
      | (None, w') => write_all Write cs' w'
      end
  end.

(** A rendering step hands the strings [cs] to the writer, up to the first
    error, which it returns; when no [Write] fails it has run the map loops
    up to [n']. *)
Definition hands_over {W : Type} (Write : W -> string -> option error * W)
    (step : W -> nat -> option (option error * W * nat))
    (n : nat) (cs : list string) (n' : nat) : Prop :=
  forall w e w', write_all Write cs w = (e, w') ->
    exists n'', step w n = Some (e, w', n'') /\ (e = None -> n'' = n').

(** *** Views of the store used in the statements *)

Definition object_attrStrings (o : object) : exec (list string) :=
  match o with
  | OSVG s => SVG_attrStrings s
  | OGroup g => Group_attrStrings g
  | OCircle c => Circle_attrStrings c
  | OEllipse e => Ellipse_attrStrings e
  | ORect r => Rect_attrStrings r
  | OPolygon p => Polygon_attrStrings p
  | OPolyline p => Polyline_attrStrings p
  | OLine n => Line_attrStrings n
  | OPath p => Path_attrStrings p
  end.

(** The element name in the tag of a value. *)
Definition object_tag (o : object) : string :=
  match o with
  | OSVG s => name (SVG_container s)
  | OGroup g => name (Group_container g)
  | OCircle _ => "circle"
  | OEllipse _ => "ellipse"
  | ORect _ => "rect"
  | OPolygon _ => "polygon"
  | OPolyline _ => "polyline"
  | OLine _ => "line"
  | OPath _ => "path"
  end.

Definition object_BaseAttrs (o : object) : BaseAttrs :=
  match o with
  | OSVG s => SVG_BaseAttrs s
  | OGroup g => ShapeAttrs_BaseAttrs (Group_ShapeAttrs g)
  | OCircle c => ShapeAttrs_BaseAttrs (Circle_ShapeAttrs c)
  | OEllipse e => ShapeAttrs_BaseAttrs (Ellipse_ShapeAttrs e)
  | ORect r => ShapeAttrs_BaseAttrs (Rect_ShapeAttrs r)
  | OPolygon p => ShapeAttrs_BaseAttrs (Polygon_ShapeAttrs p)
  | OPolyline p => ShapeAttrs_BaseAttrs (Polyline_ShapeAttrs p)
  | OLine n => ShapeAttrs_BaseAttrs (Line_ShapeAttrs n)
  | OPath p => ShapeAttrs_BaseAttrs (Path_ShapeAttrs p)
  end.

(** Assigning to the [Style] of a value, through the fields that lead to
    it. *)
Definition BaseAttrs_set_Style (a : BaseAttrs) (s : Style) : BaseAttrs :=
  mkBaseAttrs s (ExternalResourcesRequired a) (Class a).

Definition ShapeAttrs_set_Style (a : ShapeAttrs) (s : Style) : ShapeAttrs :=
  mkShapeAttrs (BaseAttrs_set_Style (ShapeAttrs_BaseAttrs a) s)
               (ShapeAttrs_Transform a).

Definition object_set_Style (o : object) (s : Style) : object :=
  match o with
  | OSVG v =>
      OSVG (mkSVG (BaseAttrs_set_Style (SVG_BaseAttrs v) s) (SVG_container v)
                  (SVG_ViewBox v) (SVG_Width v) (SVG_Height v) (SVG_X v) (SVG_Y v))
  | OGroup g =>
      OGroup (mkGroup (ShapeAttrs_set_Style (Group_ShapeAttrs g) s)
                      (Group_container g))
  | OCircle c =>
      OCircle (mkCircle (ShapeAttrs_set_Style (Circle_ShapeAttrs c) s)
                        (Circle_Cx c) (Circle_Cy c) (Circle_R c))
  | OEllipse e =>
      OEllipse (mkEllipse (ShapeAttrs_set_Style (Ellipse_ShapeAttrs e) s)
                          (Ellipse_Cx e) (Ellipse_Cy e)
                          (Ellipse_Rx e) (Ellipse_Ry e))
  | ORect r =>
      ORect (mkRect (ShapeAttrs_set_Style (Rect_ShapeAttrs r) s)
                    (Rect_Width r) (Rect_Height r) (Rect_X r) (Rect_Y r))
  | OPolygon p =>
      OPolygon (mkPolygon (ShapeAttrs_set_Style (Polygon_ShapeAttrs p) s)
                          (Polygon_Points p))
  | OPolyline p =>
      OPolyline (mkPolyline (ShapeAttrs_set_Style (Polyline_ShapeAttrs p) s)
                            (Polyline_Points p))
  | OLine n =>
      OLine (mkLine (ShapeAttrs_set_Style (Line_ShapeAttrs n) s)
                    (Line_X1 n) (Line_X2 n) (Line_Y1 n) (Line_Y2 n))
  | OPath p =>
      OPath (mkPath (ShapeAttrs_set_Style (Path_ShapeAttrs p) s)
                    (d p) (PathLength p))
  end.

(** The contents of the container at an address; none elsewhere. *)
Definition contents_at (h : heap) (c : ptr) : list ptr :=
  match h !! c with
  | Some o => match object_container o with
              | Some k => contents k
              | None => []
              end
  | None => []
  end.

(** The strings a rendering hands to [Write], one per call and in order,
    when no [Write] fails, with the number of map loops run afterwards. *)
Fixpoint chunks_contents (chunks : ptr -> nat -> option (list string * nat))
    (rs : list ptr) (n : nat) : option (list string * nat) :=
  match rs with
  | [] => Some ([], n)
  | r :: rs' =>
      match chunks r n with
      | Some (cs, n1) =>
          match chunks_contents chunks rs' n1 with
          | Some (cs', n2) => Some (cs ++ cs', n2)
          | None => None
          end
      | None => None
      end
  end.

Fixpoint chunks (fuel : nat) (h : heap) (r : ptr) (n : nat)
    : option (list string * nat) :=
  match fuel with
  | 0 => None
  | S fuel' =>
      match h !! r with
      | None => None
      | Some o =>
          let '(attrs, n1) := object_attrStrings o n in
          let attrString := strings_Join attrs " " in
          match object_container o with
          | Some k =>
              match chunks_contents (chunks fuel' h) (contents k) n1 with
              | Some (cs, n2) =>
                  Some (("<" +:+ name k +:+ " " +:+ attrString +:+ ">")
                          :: cs ++ ["</" +:+ name k +:+ ">"], n2)
              | None => None
              end
          | None =>
              Some (["<" +:+ object_tag o +:+ " " +:+ attrString +:+ "/>"], n1)
          end
      end
  end.

(** The strings put one after the other. *)
Definition joined (cs : list string) : string :=
  fold_right String.append "" cs.

(** The text a rendering of the value at [r] leaves in an empty buffer. *)
Definition render_text (h : heap) (r : ptr) (n : nat) : option string :=
  match render string buffer_Write (length h) h r "" n with
  | Some (_, out, _) => Some out
  | None => None
  end.

(** The stores the construction methods build: the contents of a container
    lie at later addresses of the store. *)
Definition wf_object (len : nat) (i : ptr) (o : object) : bool :=
  match object_container o with
  | Some k => forallb (fun r => (i <? r)%nat && (r <? len)%nat) (contents k)
  | None => true
  end.

Definition wf_heap (h : heap) : bool :=
  forallb (fun i => match h !! i with
                    | Some o => wf_object (length h) i o
                    | None => true
                    end) (seq 0 (length h)).

(** A Style that holds one property at most. *)
Definition style_small (s : Style) : bool :=
  match Style_valueMap s with
  | None => true
  | Some m => (size m <=? 1)%nat
  end.

(** The value at [r] and every value below it (its contents, their contents
    and so on) have such a Style; the other values of the store are not
    looked at.  The answer is [false] when [fuel] does not reach the bottom
    of the tree. *)
Fixpoint subtree_small (fuel : nat) (h : heap) (r : ptr) : bool :=
  match fuel with
  | 0 => false
  | S fuel' =>
      match h !! r with
      | None => true
      | Some o =>
          style_small (BaseAttrs_Style (object_BaseAttrs o))
          && match object_container o with
             | Some k => forallb (subtree_small fuel' h) (contents k)
             | None => true
             end
      end
  end.

(** *** Construction calls as data *)

Inductive ctor :=
| NewSVGChild (x y w h : float64)
| NewCircle (cx cy r : float64)
| NewEllipse (cx cy rx ry : float64)
| NewRect (x y w h : float64)
| NewPolygon (pts : list Point)
| NewPolyline (pts : list Point)
| NewLine (x1 y1 x2 y2 : float64)
| NewPath
| NewGroup.

Definition construct (c : ptr) (k : ctor) : heap -> option (ptr * heap) :=
  match k with
  | NewSVGChild x y w h => container_SVG c x y w h
  | NewCircle cx cy r => container_Circle c cx cy r
  | NewEllipse cx cy rx ry => container_Ellipse c cx cy rx ry
  | NewRect x y w h => container_Rect c x y w h
  | NewPolygon pts => container_Polygon c pts
  | NewPolyline pts => container_Polyline c pts
  | NewLine x1 y1 x2 y2 => container_Line c x1 y1 x2 y2
  | NewPath => container_Path c
  | NewGroup => SVG_Group c
  end.

(** A sequence of construction calls on the same receiver. *)
Fixpoint construct_all (c : ptr) (ks : list ctor) (h : heap)
    : option (list ptr * heap) :=
  match ks with
  | [] => Some ([], h)
  | k :: ks' =>
      match construct c k h with
      | Some (r, h1) =>
          match construct_all c ks' h1 with
          | Some (rs, h2) => Some (r :: rs, h2)
          | None => None
          end
      | None => None
      end
  end.

(** The value a construction call allocates. *)
Definition ctor_object (k : ctor) : object :=
  match k with
  | NewSVGChild x y w h =>
      OSVG (mkSVG BaseAttrs_zero (mkContainer "svg" []) ViewBox_zero w h x y)
  | NewCircle cx cy r => OCircle (mkCircle ShapeAttrs_zero cx cy r)
  | NewEllipse cx cy rx ry => OEllipse (mkEllipse ShapeAttrs_zero cx cy rx ry)
  | NewRect x y w h => ORect (mkRect ShapeAttrs_zero w h x y)
  | NewPolygon pts => OPolygon (mkPolygon ShapeAttrs_zero pts)
  | NewPolyline pts => OPolyline (mkPolyline ShapeAttrs_zero pts)
  | NewLine x1 y1 x2 y2 => OLine (mkLine ShapeAttrs_zero x1 x2 y1 y2)
  | NewPath => OPath (mkPath ShapeAttrs_zero [] f0)
  | NewGroup => OGroup (mkGroup ShapeAttrs_zero (mkContainer "g" []))
  end.

(** The element name of the value a construction call allocates. *)
Definition ctor_tag (k : ctor) : string :=
  match k with
  | NewSVGChild _ _ _ _ => "svg"
  | NewCircle _ _ _ => "circle"
  | NewEllipse _ _ _ _ => "ellipse"
  | NewRect _ _ _ _ => "rect"
  | NewPolygon _ => "polygon"
  | NewPolyline _ => "polyline"
  | NewLine _ _ _ _ => "line"
  | NewPath => "path"
  | NewGroup => "g"
  end.

(** What the value a construction call allocates renders to, as long as
    nothing else is done to it: the rendering of a store with that value
    alone. *)
Definition ctor_chunks (k : ctor) : list string :=
  match chunks 1 [ctor_object k] 0 0 with
  | Some (cs, _) => cs
  | None => []
  end.

Definition ctor_text (k : ctor) : string :=
  default "" (render_text [ctor_object k] 0 0).

(** The number of attribute fragments of a value, and the end of its tag. *)
Definition attr_count (o : object) : nat :=
  match o with
  | OSVG _ => 9
  | OGroup _ => 4
  | OCircle _ => 7
  | OEllipse _ => 8
  | ORect _ => 8
  | OPolygon _ => 5
  | OPolyline _ => 5
  | OLine _ => 8
  | OPath _ => 5
  end.

Definition tag_end (o : object) : string :=
  match object_container o with
  | Some _ => ">"
  | None => "/>"
  end.

(** The construction methods in the method set of the type of a value:
    those of [container] for the two types embedding it, and [Group] for
    [*SVG] alone. *)
Definition offers (o : object) (k : ctor) : bool :=
  match o, k with
  | OSVG _, _ => true
  | OGroup _, NewGroup => false
  | OGroup _, _ => true
  | _, _ => false
  end.

(** The calls of the path builder as data. *)
Inductive path_call :=
| CallMa (pts : list Point) | CallMr (pts : list Point)
| CallZ
| CallLa (pts : list Point) | CallLr (pts : list Point)
| CallHa (xs : list float64) | CallHr (xs : list float64)
| CallVa (ys : list float64) | CallVr (ys : list float64)
| CallCa (cvs : list CCurve) | CallCr (cvs : list CCurve)
| CallSa (cvs : list SCurve) | CallSr (cvs : list SCurve)
| CallQa (cvs : list QCurve) | CallQr (cvs : list QCurve)
| CallTa (cvs : list Point) | CallTr (cvs : list Point).

Definition Path_call (p : Path) (c : path_call) : Path :=
  match c with
  | CallMa pts => Path_Ma p pts | CallMr pts => Path_Mr p pts
  | CallZ => Path_Z p
  | CallLa pts => Path_La p pts | CallLr pts => Path_Lr p pts
  | CallHa xs => Path_Ha p xs | CallHr xs => Path_Hr p xs
  | CallVa ys => Path_Va p ys | CallVr ys => Path_Vr p ys
  | CallCa cvs => Path_Ca p cvs | CallCr cvs => Path_Cr p cvs
  | CallSa cvs => Path_Sa p cvs | CallSr cvs => Path_Sr p cvs
  | CallQa cvs => Path_Qa p cvs | CallQr cvs => Path_Qr p cvs
  | CallTa cvs => Path_Ta p cvs | CallTr cvs => Path_Tr p cvs
  end.

(** The tokens of a path: for each command its letter, then its numbers. *)
Definition Path_tokens (p : Path) : list string :=
  flat_map (fun c => cmd_name c :: cmdBody_strings (cmd_body c)) (d p).

(** The command letters take one byte each. *)
Definition one_byte_names (cs : list cmd) : Prop :=
  Forall (fun c => String.length (cmd_name c) = 1) cs.

(** *** The wording of the specification, for comparison *)

(** The joining rule for path tokens as the specification words it: a
    space before each token, or a line feed when the running count of the
    line with the token exceeds 255, after which the count restarts at
    [restart t]; no separator before the first token.  The specification
    restarts the count at the length of the token; it leaves open whether the
    separators count, so a separator counts for [sep] characters, none or
    one. *)
Fixpoint spec_separated (sep : nat) (restart : string -> nat) (count : nat)
    (toks : list string) : list string :=
  match toks with
  | [] => []
  | t :: toks' =>
      let count' := if (count =? 0)%nat then String.length t
                    else count + sep + String.length t in
      if (255 <? count')%nat
      then nl :: t :: spec_separated sep restart (restart t) toks'
      else " " :: t :: spec_separated sep restart count' toks'
  end.

Definition spec_join_tokens (sep : nat) (restart : string -> nat)
    (toks : list string) : string :=
  String.concat "" (tail (spec_separated sep restart 0 toks)).

(** The attribute text as the specification words it: the fragments that
    are not empty, joined by single spaces. *)
Definition spec_join_attrs (attrs : list string) : string :=
  strings_Join (filter (fun a => a <> "") attrs) " ".

(** *** More calls as data *)

(** The calls on a Style. *)
Inductive style_call :=
| CallGet (k : string)
| CallSet (k v : string)
| CallUnset (k : string).

Definition Style_call (s : Style) (c : style_call) : Style :=
  match c with
  | CallGet k => snd (Style_Get s k)
  | CallSet k v => Style_Set s k v
  | CallUnset k => Style_Unset s k
  end.

(** The calls on a Transform. *)
Inductive transform_call :=
| CallMatrix (a b c d e f : float64)
| CallTranslate (tx ty : float64)
| CallScale (sx sy : float64)
| CallRotate (angle cx cy : float64)
| CallSkewX (angle : float64)
| CallSkewY (angle : float64).

Definition Transform_call (t : Transform) (c : transform_call) : Transform :=
  match c with
  | CallMatrix a b c d e f => Transform_Matrix t a b c d e f
  | CallTranslate tx ty => Transform_Translate t tx ty
  | CallScale sx sy => Transform_Scale t sx sy
  | CallRotate angle cx cy => Transform_Rotate t angle cx cy
  | CallSkewX angle => Transform_SkewX t angle
  | CallSkewY angle => Transform_SkewY t angle
  end.

(** The addresses in the contents of a value; none for a leaf. *)
Definition object_contents (o : object) : list ptr :=
  match object_container o with
  | Some k => contents k
  | None => []
  end.

(** The calls that build a store: [NewSVG], a construction call on the value
    at an address, a call on the Style of the value at an address.  A call
    on an address that holds no value, or that the value there does not
    offer, has no result. *)
Inductive api_call :=
| ApiNewSVG (width' height' : float64)
| ApiConstruct (c : ptr) (k : ctor)
| ApiStyle (r : ptr) (sc : style_call).

Definition api_step (h : heap) (a : api_call) : option heap :=
  match a with
  | ApiNewSVG width' height' => Some (snd (NewSVG width' height' h))
  | ApiConstruct c k =>
      match h !! c with
      | Some o =>
          if offers o k
          then match construct c k h with
               | Some (_, h') => Some h'
               | None => None
               end
          else None
      | None => None
      end
  | ApiStyle r sc =>
      match h !! r with
      | Some o =>
          Some (<[r := object_set_Style o
                          (Style_call (BaseAttrs_Style (object_BaseAttrs o)) sc)]> h)
      | None => None
      end
  end.

Fixpoint api_run (calls : list api_call) (h : heap) : option heap :=
  match calls with
  | [] => Some h
  | a :: calls' =>
      match api_step h a with
      | Some h' => api_run calls' h'
      | None => None
      end
  end.

End Exec.
End Gosvg.

Abbreviation heap := (list object).

(** ** Concrete trees and paths, over [Ints] *)

(** [NewSVG(1, 1)]: the value, and the store holding it. *)
Definition ex_root_object : @object Ints :=
  @OSVG Ints (@mkSVG Ints BaseAttrs_zero (mkContainer "svg" []) (@ViewBox_zero Ints)
                1%Z 1%Z 0%Z 0%Z).

Definition ex_root : list (@object Ints) := snd (@NewSVG Ints 1%Z 1%Z []).

(** The value [Circle(1, 2, 3)] allocates. *)
Definition ex_circle_object : @object Ints :=
  @OCircle Ints (@mkCircle Ints ShapeAttrs_zero 1%Z 2%Z 3%Z).

(** A view box on which [Set(0, 1, 2, 3)] was called. *)
Definition ex_viewBox : @ViewBox Ints :=
  @ViewBox_Set Ints (@ViewBox_zero Ints) 0%Z 1%Z 2%Z 3%Z.

(** On that root: [Circle(1, 2, 3)], [SVG(0, 0, 5, 5)], [Group()], [Path()]
    and [Polygon] of three points. *)
Definition ex_calls : list (@ctor Ints) :=
  [@NewCircle Ints 1%Z 2%Z 3%Z; @NewSVGChild Ints 0%Z 0%Z 5%Z 5%Z;
   @NewGroup Ints; @NewPath Ints;
   @NewPolygon Ints [@mkPoint Ints 0%Z 0%Z; @mkPoint Ints 10%Z 0%Z;
                     @mkPoint Ints 10%Z 10%Z]].

Definition ex_tree : list (@object Ints) :=
  match @construct_all Ints 0 ex_calls ex_root with
  | Some (_, h) => h
  | None => []
  end.

(** [NewSVG(1, 1)] with [Style.Set] called once, and called twice. *)
Definition ex_styled_once : list (@object Ints) :=
  [@OSVG Ints
     (@mkSVG Ints (mkBaseAttrs (Style_Set (mkStyle None) "fill" "red") false "")
        (mkContainer "svg" []) (@ViewBox_zero Ints) 1%Z 1%Z 0%Z 0%Z)].

Definition ex_styled_twice : list (@object Ints) :=
  [@OSVG Ints
     (@mkSVG Ints
        (mkBaseAttrs
           (Style_Set (Style_Set (mkStyle None) "fill" "red") "stroke" "blue")
           false "")
        (mkContainer "svg" []) (@ViewBox_zero Ints) 1%Z 1%Z 0%Z 0%Z)].

(** A path on which [Z()] was called [k] times. *)
Definition ex_closes (k : nat) : @Path Ints :=
  fold_left (@Path_call Ints) (repeat (@CallZ Ints) k)
    (@mkPath Ints ShapeAttrs_zero [] 0%Z).

(** [Ma] of two points, then [Cr] of one curve, then [Z]. *)
Definition ex_path_calls : list (@path_call Ints) :=
  [@CallMa Ints [@mkPoint Ints 1%Z 2%Z; @mkPoint Ints 3%Z 4%Z];
   @CallCr Ints [@mkCCurve Ints 1%Z 2%Z 3%Z 4%Z 5%Z 6%Z];
   @CallZ Ints].

Definition ex_path : @Path Ints :=
  fold_left (@Path_call Ints) ex_path_calls (@mkPath Ints ShapeAttrs_zero [] 0%Z).

(** [NewSVG(1, 1)]; on it [Circle(1, 2, 3)] and [Group()]; on the group
    [Rect(0, 0, 4, 4)]; on the Style of the circle [Set] of one property. *)
Definition ex_api_calls : list (@api_call Ints) :=
  [@ApiNewSVG Ints 1%Z 1%Z;
   @ApiConstruct Ints 0 (@NewCircle Ints 1%Z 2%Z 3%Z);
   @ApiConstruct Ints 0 (@NewGroup Ints);
   @ApiConstruct Ints 2 (@NewRect Ints 0%Z 0%Z 4%Z 4%Z);
   @ApiStyle Ints 1 (CallSet "fill" "red")].

Definition ex_built : list (@object Ints) :=
  match @api_run Ints ex_api_calls [] with
  | Some h => h
  | None => []
  end.

(** [NewSVG(1, 1)] with two properties set on its Style; on it
    [SVG(0, 0, 5, 5)], and on that one [Circle(1, 2, 3)] with one property
    set on its Style. *)
Definition ex_mixed_calls : list (@api_call Ints) :=
  [@ApiNewSVG Ints 1%Z 1%Z;
   @ApiStyle Ints 0 (CallSet "fill" "red");
   @ApiStyle Ints 0 (CallSet "stroke" "blue");
   @ApiConstruct Ints 0 (@NewSVGChild Ints 0%Z 0%Z 5%Z 5%Z);
   @ApiConstruct Ints 1 (@NewCircle Ints 1%Z 2%Z 3%Z);
   @ApiStyle Ints 2 (CallSet "fill" "red")].

Definition ex_mixed : list (@object Ints) :=
  match @api_run Ints ex_mixed_calls [] with
  | Some h => h
  | None => []
  end.

(** ** Properties of the attribute bundles and of the path encoder *)

Section Properties.

Context `{Runtime}.

(** *** Style *)

Lemma Style_attrString_alloc (range : map_order) (m : gmap string string) (n : nat) :
  Style_attrString range (mkStyle (Some m)) n =
  ("style=" +:+ dq +:+ strings_Join (fold_left style_entry (range n m) []) ";" +:+ dq,
   S n).
Proof. reflexivity. Qed.

Lemma fold_style_entry (kvs : list (string * string)) (outs : list string) :
  fold_left style_entry kvs outs =
  outs ++ map (fun kv => fst kv +:+ ":" +:+ snd kv) kvs.
Proof.
  revert outs. induction kvs as [|kv kvs IH]; intros outs; simpl.
  - by rewrite app_nil_r.
  - rewrite IH. unfold style_entry. by rewrite <- app_assoc.
Qed.

Lemma range_empty (range : map_order) (n : nat) : range n ∅ = [].
Proof.
  apply Permutation_nil_r. rewrite (order_perm range n ∅).
  by rewrite map_to_list_empty.
Qed.

(** C8, as the code has it: a Style yields the empty fragment exactly when
    its map was never allocated; once the map is allocated the fragment is
    [style=] followed by the quoted [key:value] pairs, joined by [;] in the
    order of the map loop, whatever their number. *)
Theorem C8_fragment_empty_iff_map_nil (range : map_order) (s : Style) (n : nat) :
  (fst (Style_attrString range s n) = "" <-> Style_valueMap s = None) /\
  (forall m, Style_valueMap s = Some m ->
     exists kvs, kvs ≡ₚ map_to_list m /\
       fst (Style_attrString range s n) =
       "style=" +:+ dq
       +:+ strings_Join (map (fun kv => fst kv +:+ ":" +:+ snd kv) kvs) ";"
       +:+ dq).
Proof.
  destruct s as [[m|]]; split.
  - rewrite Style_attrString_alloc. cbn [fst Style_valueMap]. split; discriminate.
  - intros m' [= <-]. exists (range n m). split; [apply order_perm|].
    rewrite Style_attrString_alloc. cbn [fst]. by rewrite fold_style_entry.
  - split; reflexivity.
  - intros m'. discriminate.
Qed.

(** *** ViewBox *)

Lemma ViewBox_attrString_Set (v : ViewBox) (x y w h : float64) :
  ViewBox_attrString (ViewBox_Set v x y w h) =
  "viewBox=" +:+ dq +:+ (fmt_g x +:+ " " +:+ fmt_g x +:+ " "
                         +:+ fmt_g w +:+ " " +:+ fmt_g h) +:+ dq.
Proof. reflexivity. Qed.

(** *** The path encoder *)

Lemma Path_call_names (p : Path) (c : path_call) :
  one_byte_names (d p) -> one_byte_names (d (Path_call p c)).
Proof.
  intros Hp. destruct c; cbn; apply Forall_app; split; try assumption;
    by repeat constructor.
Qed.

Lemma Path_calls_names (calls : list path_call) (p : Path) :
  one_byte_names (d p) -> one_byte_names (d (fold_left Path_call calls p)).
Proof.
  revert p. induction calls as [|c calls IH]; intros p Hp; [assumption|].
  cbn. apply IH. by apply Path_call_names.
Qed.

(** With separators counting for nothing the count just adds up. *)
Lemma spec_count_zero_sep (count len : nat) :
  (if (count =? 0)%nat then len else count + 0 + len) = count + len.
Proof. destruct count; cbn; lia. Qed.

(** The inner loop, followed by whatever comes next. *)
Lemma pathStr_body_loop (ss rest : list string) (outs : list string) (count : nat) :
  let '(outs', count') := fold_left pathStr_body ss (outs, count) in
  outs' ++ spec_separated 0 (fun _ => 0) count' rest
  = outs ++ spec_separated 0 (fun _ => 0) count (ss ++ rest).
Proof.
  revert outs count. induction ss as [|s ss IH]; intros outs count; [reflexivity|].
  cbn [fold_left app spec_separated]. unfold pathStr_body at 2.
  rewrite spec_count_zero_sep.
  destruct (255 <? count + String.length s)%nat.
  - specialize (IH (outs ++ [nl; s]) 0).
    destruct (fold_left pathStr_body ss (outs ++ [nl; s], 0)) as [outs' count'].
    rewrite IH. by rewrite <- app_assoc.
  - specialize (IH (outs ++ [" "; s]) (count + String.length s)).
    destruct (fold_left pathStr_body ss _) as [outs' count'].
    rewrite IH. by rewrite <- app_assoc.
Qed.

(** The outer loop, followed by whatever comes next. *)
Lemma pathStr_cmd_loop (cs : list cmd) (rest : list string)
    (outs : list string) (count : nat) :
  one_byte_names cs ->
  let '(outs', count') := fold_left pathStr_cmd cs (outs, count) in
  outs' ++ spec_separated 0 (fun _ => 0) count' rest
  = outs ++ spec_separated 0 (fun _ => 0) count
              (flat_map (fun c => cmd_name c :: cmdBody_strings (cmd_body c)) cs
               ++ rest).
Proof.
  intros Hcs. revert outs count.
  induction Hcs as [|c cs Hc _ IH]; intros outs count; [reflexivity|].
  cbn [fold_left flat_map]. unfold pathStr_cmd at 2.
  rewrite <- app_assoc, <- app_comm_cons. cbn [spec_separated].
  rewrite spec_count_zero_sep, Hc, Nat.add_1_r.
  set (st := if (255 <? S count)%nat then _ else _).
  pose proof (pathStr_body_loop (cmdBody_strings (cmd_body c))
                (flat_map (fun c => cmd_name c :: cmdBody_strings (cmd_body c)) cs
                 ++ rest)) as Hbody.
  destruct (255 <? S count)%nat; subst st.
  - specialize (Hbody (outs ++ [nl; cmd_name c]) 0).
    destruct (fold_left pathStr_body _ _) as [outs1 count1].
    specialize (IH outs1 count1).
    destruct (fold_left pathStr_cmd cs _) as [outs' count'].
    rewrite IH, Hbody. by rewrite <- app_assoc.
  - specialize (Hbody (outs ++ [" "; cmd_name c]) (S count)).
    destruct (fold_left pathStr_body _ _) as [outs1 count1].
    specialize (IH outs1 count1).
    destruct (fold_left pathStr_cmd cs _) as [outs' count'].
    rewrite IH, Hbody. by rewrite <- app_assoc.
Qed.

Lemma pathStr_of_one_byte_names (p : Path) :
  one_byte_names (d p) ->
  Path_pathStr p = spec_join_tokens 0 (fun _ => 0) (Path_tokens p).
Proof.
  intros Hp. unfold Path_pathStr, spec_join_tokens, Path_tokens, strings_Join.
  pose proof (pathStr_cmd_loop (d p) [] [] 0 Hp) as Hloop.
  destruct (fold_left pathStr_cmd (d p) ([], 0)) as [outs count].
  cbn [spec_separated app] in Hloop. rewrite !app_nil_r in Hloop.
  rewrite <- Hloop. by destruct outs.
Qed.

Lemma append_empty_r (t : string) : t +:+ "" = t.
Proof.
  induction t as [|a t IH]; [reflexivity|].
  change (String a (t +:+ "") = String a t). by rewrite IH.
Qed.

Lemma spec_join_tokens_first (sep : nat) (restart : string -> nat) (t : string)
    (toks : list string) :
  exists rest, spec_join_tokens sep restart (t :: toks) = t +:+ rest.
Proof.
  unfold spec_join_tokens. cbn [spec_separated Nat.eqb].
  destruct (255 <? String.length t)%nat; cbn [tail];
    match goal with
    | |- context [String.concat _ (t :: ?l)] => destruct l as [|x rest']
    end;
    solve [ exists ""; cbn; by rewrite append_empty_r | eexists; reflexivity ].
Qed.

(** C1, as the code has it: for every path built by the builder methods,
    the tokens are joined with single spaces, except that a token with which
    the running count would exceed 255 is preceded by a line feed instead,
    and the count then restarts at zero (the token that opens the new line
    is not counted, and the count adds up the lengths of tokens only); the
    first token of the output follows no separator. *)
Theorem C1_pathStr_wraps_and_restarts_at_zero
    (attrs : ShapeAttrs) (len : float64) (calls : list path_call) :
  let p := fold_left Path_call calls (mkPath attrs [] len) in
  Path_pathStr p = spec_join_tokens 0 (fun _ => 0) (Path_tokens p) /\
  (forall t toks, Path_tokens p = t :: toks ->
     exists rest, Path_pathStr p = t +:+ rest).
Proof.
  intros p.
  assert (Hp : Path_pathStr p = spec_join_tokens 0 (fun _ => 0) (Path_tokens p)).
  { apply pathStr_of_one_byte_names, Path_calls_names. constructor. }
  split; [exact Hp|]. intros t toks Htoks. rewrite Hp, Htoks.
  apply spec_join_tokens_first.
Qed.

End Properties.

(** ** Properties of the renderer *)

Section Rendering.

Context `{Runtime}.

Lemma append_assoc (a b c : string) : (a +:+ b) +:+ c = a +:+ b +:+ c.
Proof.
  induction a as [|x a IH]; [reflexivity|].
  change (String x ((a +:+ b) +:+ c) = String x (a +:+ b +:+ c)). by rewrite IH.
Qed.

(** *** Writers *)

Lemma write_all_app {W : Type} (Write : W -> string -> option error * W)
    (cs cs' : list string) (w : W) :
  write_all Write (cs ++ cs') w =
  match write_all Write cs w with
  | (Some e, w') => (Some e, w')
  | (None, w') => write_all Write cs' w'
  end.
Proof.
  revert w. induction cs as [|c cs IH]; intros w; [reflexivity|].
  cbn [app write_all]. destruct (Write w c) as [[e|] w']; [reflexivity|apply IH].
Qed.

Lemma write_all_buffer (cs : list string) (b : string) :
  write_all buffer_Write cs b = (None, b +:+ joined cs).
Proof.
  revert b. induction cs as [|c cs IH]; intros b.
  - cbn. by rewrite append_empty_r.
  - cbn [write_all buffer_Write joined fold_right]. rewrite IH.
    by rewrite append_assoc.
Qed.

Lemma write_all_log (cs : list string) (l : list string) :
  write_all log_Write cs l = (None, l ++ cs).
Proof.
  revert l. induction cs as [|c cs IH]; intros l.
  - cbn. by rewrite app_nil_r.
  - cbn [write_all log_Write]. rewrite IH. by rewrite <- app_assoc.
Qed.

(** *** A rendering hands its strings to the writer, up to the first error *)

Section Writer.

Variable range : map_order.
Variable W : Type.
Variable Write : W -> string -> option error * W.

Lemma leaf_render_hands_over (tag : string) (attrStrings : exec (list string))
    (n : nat) :
  hands_over Write (leaf_render W Write tag attrStrings) n
    ["<" +:+ tag +:+ " " +:+ strings_Join (fst (attrStrings n)) " " +:+ "/>"]
    (snd (attrStrings n)).
Proof.
  intros w e w' Hw. unfold leaf_render.
  destruct (attrStrings n) as [attrs n1]. cbn [fst snd write_all] in *.
  destruct (Write w _) as [[err|] w1]; injection Hw as <- <-; eexists; (split; [reflexivity|done]).
Qed.

Lemma render_contents_hands_over (render' : ptr -> W -> nat -> option (option error * W * nat))
    (chunks' : ptr -> nat -> option (list string * nat)) :
  (forall r n cs n', chunks' r n = Some (cs, n') -> hands_over Write (render' r) n cs n') ->
  forall rs n cs n',
    chunks_contents chunks' rs n = Some (cs, n') ->
    hands_over Write (render_contents W render' rs) n cs n'.
Proof.
  intros Hstep rs. induction rs as [|r rs IH]; intros n cs n' Hcs w e w' Hw.
  - injection Hcs as <- <-. injection Hw as <- <-. cbn. eexists; split; [reflexivity|done].
  - cbn [chunks_contents] in Hcs.
    destruct (chunks' r n) as [[cs1 n1]|] eqn:Hr; [|discriminate].
    destruct (chunks_contents chunks' rs n1) as [[cs2 n2]|] eqn:Hrs; [|discriminate].
    injection Hcs as <- <-. rewrite write_all_app in Hw.
    destruct (write_all Write cs1 w) as [[e1|] w1] eqn:Hw1.
    + injection Hw as <- <-.
      destruct (Hstep _ _ _ _ Hr _ _ _ Hw1) as (n'' & Hrender & _).
      cbn [render_contents]. rewrite Hrender. eexists; split; [reflexivity|done].
    + destruct (Hstep _ _ _ _ Hr _ _ _ Hw1) as (n'' & Hrender & Hn).
      rewrite (Hn eq_refl) in Hrender.
      cbn [render_contents]. rewrite Hrender. by apply (IH _ _ _ Hrs).
Qed.

Lemma container_render_hands_over
    (render' : ptr -> W -> nat -> option (option error * W * nat))
    (chunks' : ptr -> nat -> option (list string * nat))
    (k : container) (attrs : list string) :
  (forall r n cs n', chunks' r n = Some (cs, n') -> hands_over Write (render' r) n cs n') ->
  forall n cs n',
    chunks_contents chunks' (contents k) n = Some (cs, n') ->
    hands_over Write (container_render W Write render' k attrs) n
      (("<" +:+ name k +:+ " " +:+ strings_Join attrs " " +:+ ">")
         :: cs ++ ["</" +:+ name k +:+ ">"]) n'.
Proof.
  intros Hstep n cs n' Hcs w e w' Hw. unfold container_render.
  cbn [write_all] in Hw.
  destruct (Write w _) as [[e0|] w0].
  { injection Hw as <- <-. eexists; split; [reflexivity|done]. }
  rewrite write_all_app in Hw.
  pose proof (render_contents_hands_over _ _ Hstep _ _ _ _ Hcs w0) as Hin.
  destruct (write_all Write cs w0) as [[e1|] w1] eqn:Hw1.
  - injection Hw as <- <-. destruct (Hin _ _ eq_refl) as (n'' & -> & _).
    eexists; split; [reflexivity|done].
  - destruct (Hin _ _ eq_refl) as (n'' & -> & Hn). rewrite (Hn eq_refl).
    cbn [write_all] in Hw.
    destruct (Write w1 _) as [[e2|] w2]; injection Hw as <- <-; eexists; (split; [reflexivity|done]).
Qed.

Lemma render_hands_over (fuel : nat) (h : heap) (r : ptr) (n : nat)
    (cs : list string) (n' : nat) :
  chunks range fuel h r n = Some (cs, n') ->
  hands_over Write (render range W Write fuel h r) n cs n'.
Proof.
  revert r n cs n'. induction fuel as [|fuel IH]; intros r n cs n' Hcs;
    [discriminate|].
  cbn [chunks render] in *.
  destruct (h !! r) as [o|]; [|discriminate].
  destruct (object_attrStrings range o n) as [attrs n1] eqn:Hattrs.
  destruct o; cbn [object_container object_attrStrings object_tag] in *;
    try (injection Hcs as <- <-;
         unfold Circle_render, Ellipse_render, Rect_render, Polygon_render,
           Polyline_render, Line_render, Path_render;
         match goal with
         | |- hands_over Write (leaf_render _ _ ?tag ?a) _ _ _ =>
             pose proof (leaf_render_hands_over tag a n) as Hleaf;
             rewrite Hattrs in Hleaf; exact Hleaf
         end).
  - destruct (chunks_contents _ _ _) as [[cs0 n2]|] eqn:Hin; [|discriminate].
    injection Hcs as <- <-. intros w e w' Hw. unfold SVG_render. rewrite Hattrs.
    by apply (container_render_hands_over _ _ _ _ (IH) _ _ _ Hin).
  - destruct (chunks_contents _ _ _) as [[cs0 n2]|] eqn:Hin; [|discriminate].
    injection Hcs as <- <-. intros w e w' Hw. unfold Group_render. rewrite Hattrs.
    by apply (container_render_hands_over _ _ _ _ (IH) _ _ _ Hin).
Qed.

End Writer.

(** *** Stores built by the construction methods *)

Lemma wf_heap_spec (h : heap) :
  wf_heap h = true <->
  forall i o k, h !! i = Some o -> object_container o = Some k ->
    Forall (fun r => i < r < length h) (contents k).
Proof.
  unfold wf_heap. rewrite forallb_forall. split.
  - intros Hall i o k Hi Hk.
    assert (Hlt : i < length h) by (eapply lookup_lt_Some; eassumption).
    specialize (Hall i). rewrite Hi in Hall. unfold wf_object in Hall.
    rewrite Hk in Hall.
    assert (Hb : forallb (fun r => (i <? r)%nat && (r <? length h)%nat) (contents k) = true).
    { apply Hall. apply in_seq. lia. }
    rewrite forallb_forall in Hb. apply Forall_forall. intros r Hr.
    apply list_elem_of_In in Hr. apply Hb in Hr.
    apply andb_prop in Hr as [H1 H2].
    apply Nat.ltb_lt in H1. apply Nat.ltb_lt in H2. lia.
  - intros Hall i _. destruct (h !! i) as [o|] eqn:Hi; [|reflexivity].
    unfold wf_object. destruct (object_container o) as [k|] eqn:Hk; [|reflexivity].
    apply forallb_forall. intros r Hr.
    specialize (Hall i o k Hi Hk). rewrite Forall_forall in Hall.
    apply list_elem_of_In in Hr. apply Hall in Hr.
    apply andb_true_intro. split; apply Nat.ltb_lt; lia.
Qed.

Lemma chunks_contents_ext (f g : ptr -> nat -> option (list string * nat))
    (P : ptr -> Prop) (rs : list ptr) :
  (forall r n x, P r -> f r n = Some x -> g r n = Some x) ->
  Forall P rs ->
  forall n x, chunks_contents f rs n = Some x -> chunks_contents g rs n = Some x.
Proof.
  intros Hfg Hrs. induction Hrs as [|r rs Hr _ IH]; intros n x Hx; [exact Hx|].
  cbn [chunks_contents] in *.
  destruct (f r n) as [[cs1 n1]|] eqn:Hf; [|discriminate].
  rewrite (Hfg _ _ _ Hr Hf).
  destruct (chunks_contents f rs n1) as [[cs2 n2]|] eqn:Hrest; [|discriminate].
  by rewrite (IH _ _ Hrest).
Qed.

Lemma chunks_contents_app (f : ptr -> nat -> option (list string * nat))
    (rs rs' : list ptr) (n : nat) :
  chunks_contents f (rs ++ rs') n =
  match chunks_contents f rs n with
  | Some (cs, n1) =>
      match chunks_contents f rs' n1 with
      | Some (cs', n2) => Some (cs ++ cs', n2)
      | None => None
      end
  | None => None
  end.
Proof.
  revert n. induction rs as [|r rs IH]; intros n.
  - cbn. by destruct (chunks_contents f rs' n) as [[? ?]|].
  - cbn [app chunks_contents]. destruct (f r n) as [[cs1 n1]|]; [|reflexivity].
    rewrite IH. destruct (chunks_contents f rs n1) as [[cs2 n2]|]; [|reflexivity].
    destruct (chunks_contents f rs' n2) as [[cs3 n3]|]; [|reflexivity].
    by rewrite app_assoc.
Qed.

(** More fuel changes nothing. *)
Lemma chunks_fuel_mono (range : map_order) (h : heap) (fuel fuel' : nat)
    (r : ptr) (n : nat) (x : list string * nat) :
  chunks range fuel h r n = Some x -> fuel <= fuel' ->
  chunks range fuel' h r n = Some x.
Proof.
  revert fuel' r n x. induction fuel as [|fuel IH]; intros fuel' r n x Hx Hle;
    [discriminate|].
  destruct fuel' as [|fuel']; [lia|]. cbn [chunks] in *.
  destruct (h !! r) as [o|]; [|discriminate].
  destruct (object_attrStrings range o n) as [attrs n1].
  destruct (object_container o) as [k|]; [|exact Hx].
  destruct (chunks_contents (chunks range fuel h) (contents k) n1)
    as [[cs n2]|] eqn:Hin; [|discriminate].
  assert (Hin' : chunks_contents (chunks range fuel' h) (contents k) n1
                 = Some (cs, n2)).
  { eapply (chunks_contents_ext _ _ (fun _ => True));
      [|by apply Forall_true|exact Hin].
    intros r' n' x' _ Hx'. apply (IH fuel' _ _ _ Hx'). lia. }
  by rewrite Hin'.
Qed.

(** On a store built by the construction methods a rendering at an
    address of the store has a result, given fuel for the addresses behind
    it. *)
Lemma chunks_total (range : map_order) (h : heap) :
  wf_heap h = true ->
  forall fuel r n, r < length h -> length h - r <= fuel ->
    is_Some (chunks range fuel h r n).
Proof.
  intros Hwf. rewrite wf_heap_spec in Hwf.
  induction fuel as [|fuel IH]; intros r n Hr Hfuel; [lia|].
  cbn [chunks]. destruct (lookup_lt_is_Some_2 h r Hr) as [o Ho]. rewrite Ho.
  destruct (object_attrStrings range o n) as [attrs n1].
  destruct (object_container o) as [k|] eqn:Hk; [|by eexists].
  specialize (Hwf r o k Ho Hk).
  assert (Hin : is_Some (chunks_contents (chunks range fuel h) (contents k) n1)).
  { clear Ho Hk. revert n1. induction Hwf as [|r' rs Hr' _ IHrs]; intros n1;
      [by eexists|].
    cbn [chunks_contents].
    destruct (IH r' n1) as [[cs1 n2] ->]; [lia|lia|].
    destruct (IHrs n2) as [[cs2 n3] ->]. by eexists. }
  destruct Hin as [[cs n2] ->]. by eexists.
Qed.

(** A rendering reads the store only behind the address it starts at. *)
Lemma chunks_frame (range : map_order) (h h' : heap) (lo : ptr) :
  wf_heap h = true ->
  (forall q, lo < q -> q < length h -> h' !! q = h !! q) ->
  forall fuel r n x, lo < r ->
    chunks range fuel h r n = Some x -> chunks range fuel h' r n = Some x.
Proof.
  intros Hwf Hsame. rewrite wf_heap_spec in Hwf.
  induction fuel as [|fuel IH]; intros r n x Hr Hx; [discriminate|].
  cbn [chunks] in *. destruct (h !! r) as [o|] eqn:Ho; [|discriminate].
  rewrite (Hsame r Hr (lookup_lt_Some _ _ _ Ho)), Ho.
  destruct (object_attrStrings range o n) as [attrs n1].
  destruct (object_container o) as [k|] eqn:Hk; [|exact Hx].
  destruct (chunks_contents (chunks range fuel h) (contents k) n1)
    as [[cs n2]|] eqn:Hin; [|discriminate].
  assert (Hin' : chunks_contents (chunks range fuel h') (contents k) n1
                 = Some (cs, n2)).
  { eapply (chunks_contents_ext _ _ (fun r' => r < r')); [| |exact Hin].
    - intros r' n' x' Hr' Hx'. apply IH; [lia|exact Hx'].
    - eapply Forall_impl; [exact (Hwf r o k Ho Hk)|]. cbn. intros; lia. }
  by rewrite Hin'.
Qed.

(** *** The text left in a buffer *)

Lemma render_text_chunks (range : map_order) (h : heap) (r : ptr) (n : nat)
    (cs : list string) (n' : nat) :
  chunks range (length h) h r n = Some (cs, n') ->
  render_text range h r n = Some (joined cs).
Proof.
  intros Hcs. unfold render_text.
  destruct (render_hands_over range string buffer_Write _ _ _ _ _ _ Hcs
              "" None (joined cs)) as (n'' & -> & _); [|reflexivity].
  by rewrite write_all_buffer.
Qed.

Lemma joined_app (cs cs' : list string) :
  joined (cs ++ cs') = joined cs +:+ joined cs'.
Proof.
  induction cs as [|c cs IH]; [reflexivity|].
  cbn [app joined fold_right]. fold (joined (cs ++ cs')). fold (joined cs).
  by rewrite IH, append_assoc.
Qed.

Lemma append_length (a b : string) :
  String.length (a +:+ b) = String.length a + String.length b.
Proof.
  induction a as [|x a IH]; [reflexivity|].
  change (S (String.length (a +:+ b)) = S (String.length a + String.length b)).
  by rewrite IH.
Qed.

(** [strings.Join] keeps every element, empty or not, and puts a separator
    between any two neighbours. *)
Lemma strings_Join_length (elems : list string) (sep : string) :
  String.length (strings_Join elems sep) =
  list_sum (map String.length elems) + (length elems - 1) * String.length sep.
Proof.
  unfold strings_Join. induction elems as [|a [|b elems] IH].
  - reflexivity.
  - clear IH. cbn. lia.
  - change (String.concat sep (a :: b :: elems))
      with (a +:+ sep +:+ String.concat sep (b :: elems)).
    rewrite !append_length, IH. cbn [map list_sum length].
    rewrite !Nat.sub_succ, !Nat.sub_0_r, Nat.mul_succ_l. clear IH.
    unfold list_sum. cbn [fold_right]. lia.
Qed.

(** *** Render failures *)

Lemma render_Some_lt (range : map_order) (W : Type)
    (Write : W -> string -> option error * W) (fuel : nat) (h : heap) (r : ptr)
    (w : W) (n : nat) :
  is_Some (render range W Write fuel h r w n) -> r < length h.
Proof.
  destruct fuel as [|fuel]; cbn [render]; [by intros [? ?]|].
  destruct (h !! r) as [o|] eqn:Ho; [|by intros [? ?]].
  intros _. by eapply lookup_lt_Some.
Qed.

(** C7: when a [Write] fails during a rendering, the rendering returns the
    error of that [Write] at once: the writer is left as the failed [Write]
    left it, so the strings written before stay written and none of the
    strings that would have followed is written. *)
Theorem C7_write_failure_is_returned_at_once (range : map_order) (W : Type)
    (Write : W -> string -> option error * W) (h : heap) (r : ptr) (w : W) (n : nat)
    (pre : list string) (c : string) (post : list string)
    (n' : nat) (w1 : W) (e : error) (w2 : W) :
  wf_heap h = true ->
  render range (list string) log_Write (length h) h r [] n
    = Some (None, pre ++ c :: post, n') ->
  write_all Write pre w = (None, w1) ->
  Write w1 c = (Some e, w2) ->
  exists n'', render range W Write (length h) h r w n = Some (Some e, w2, n'').
Proof.
  intros Hwf Hlog Hpre Hc.
  assert (Hr : r < length h).
  { eapply render_Some_lt. rewrite Hlog. by eexists. }
  destruct (chunks_total range h Hwf (length h) r n Hr) as [[cs m] Hcs]; [lia|].
  destruct (render_hands_over range _ log_Write _ _ _ _ _ _ Hcs [] None cs)
    as (m' & Hlog' & _); [by rewrite write_all_log|].
  rewrite Hlog in Hlog'. injection Hlog' as Hcs' _. subst cs.
  destruct (render_hands_over range W Write _ _ _ _ _ _ Hcs w (Some e) w2)
    as (n'' & Hrender & _); [|by exists n''].
  rewrite write_all_app, Hpre. cbn [write_all]. by rewrite Hc.
Qed.

(** X12: the same at the entry point that writes the XML declaration
    first: when a [Write] fails during [Render], be it that of the
    declaration or a later one, [Render] returns its error at once and leaves
    the writer as the failed [Write] left it. *)
Lemma SVG_Render_aborts_at_failed_write (range : map_order) (W : Type)
    (Write : W -> string -> option error * W) (h : heap) (s : ptr) (w : W) (n : nat)
    (pre : list string) (c : string) (post : list string)
    (n' : nat) (w1 : W) (e : error) (w2 : W) :
  wf_heap h = true ->
  SVG_Render range (list string) log_Write h s [] n
    = Some (None, pre ++ c :: post, n') ->
  write_all Write pre w = (None, w1) ->
  Write w1 c = (Some e, w2) ->
  exists n'', SVG_Render range W Write h s w n = Some (Some e, w2, n'').
Proof.
  intros Hwf Hlog Hpre Hc. unfold SVG_Render in *.
  destruct (h !! s) as [[v| | | | | | | |]|] eqn:Hs; try discriminate.
  cbn [log_Write app] in Hlog.
  assert (Hs' : s < length h) by (by eapply lookup_lt_Some).
  destruct (chunks_total range h Hwf (length h) s n Hs') as [[cs m] Hcs]; [lia|].
  set (top := "<?xml version=" +:+ dq +:+ "1.0" +:+ dq +:+ "?>") in *.
  destruct (render_hands_over range _ log_Write _ _ _ _ _ _ Hcs [top] None (top :: cs))
    as (m' & Hlog' & _); [by rewrite write_all_log|].
  rewrite Hlog in Hlog'. injection Hlog' as Hcs' _.
  destruct pre as [|p pre]; cbn [app] in Hcs'; injection Hcs' as -> Hcs'.
  - injection Hpre as <-. rewrite Hc. by eexists.
  - subst cs. cbn [write_all] in Hpre.
    destruct (Write w top) as [[e0|] w0]; [discriminate|].
    destruct (render_hands_over range W Write _ _ _ _ _ _ Hcs w0 (Some e) w2)
      as (n'' & Hrender & _); [|by exists n''].
    rewrite write_all_app, Hpre. cbn [write_all]. by rewrite Hc.
Qed.

(** *** Attribute sequences *)

Lemma BaseAttrs_attrStrings_eq (range : map_order) (a : BaseAttrs) (n : nat) :
  BaseAttrs_attrStrings range a n =
  ([fst (Style_attrString range (BaseAttrs_Style a) n);
    (if ExternalResourcesRequired a
     then boolAttr "externalResourcesRequired" (ExternalResourcesRequired a)
     else "");
    Class a],
   snd (Style_attrString range (BaseAttrs_Style a) n)).
Proof.
  unfold BaseAttrs_attrStrings, exec_bind, exec_ret.
  by destruct (Style_attrString range (BaseAttrs_Style a) n).
Qed.

Lemma ShapeAttrs_attrStrings_eq (range : map_order) (a : ShapeAttrs) (n : nat) :
  ShapeAttrs_attrStrings range a n =
  (fst (BaseAttrs_attrStrings range (ShapeAttrs_BaseAttrs a) n)
     ++ [Transform_attrString (ShapeAttrs_Transform a)],
   snd (BaseAttrs_attrStrings range (ShapeAttrs_BaseAttrs a) n)).
Proof.
  unfold ShapeAttrs_attrStrings, exec_bind, exec_ret.
  by destruct (BaseAttrs_attrStrings range (ShapeAttrs_BaseAttrs a) n).
Qed.

(** The attribute sequence of every value: the fragments of its
    [BaseAttrs], then fragments that do not depend on the map loops. *)
Lemma object_attrStrings_eq (range : map_order) (o : object) (n : nat) :
  exists own,
    length own + 3 = attr_count o /\
    forall range' n',
      object_attrStrings range' o n' =
      (fst (BaseAttrs_attrStrings range' (object_BaseAttrs o) n') ++ own,
       snd (BaseAttrs_attrStrings range' (object_BaseAttrs o) n')).
Proof.
  destruct o; cbn [object_attrStrings object_BaseAttrs attr_count];
    unfold SVG_attrStrings, Group_attrStrings, Circle_attrStrings,
      Ellipse_attrStrings, Rect_attrStrings, Polygon_attrStrings,
      Polyline_attrStrings, Line_attrStrings, Path_attrStrings,
      exec_bind, exec_ret;
    try (eexists; split;
         [|intros range' n'; rewrite ShapeAttrs_attrStrings_eq; cbn [fst snd];
           rewrite <- app_assoc; reflexivity]; reflexivity).
  - eexists; split; [|intros range' n';
      destruct (BaseAttrs_attrStrings range' (SVG_BaseAttrs s) n'); reflexivity].
    reflexivity.
  - eexists; split; [|intros range' n'; rewrite ShapeAttrs_attrStrings_eq;
      reflexivity]. reflexivity.
Qed.

Lemma object_attrStrings_length (range : map_order) (o : object) (n : nat) :
  length (fst (object_attrStrings range o n)) = attr_count o.
Proof.
  destruct (object_attrStrings_eq range o n) as (own & Hlen & Heq).
  rewrite Heq, BaseAttrs_attrStrings_eq. cbn [fst]. rewrite length_app.
  cbn [length]. lia.
Qed.

(** *** Styles holding one property at most *)

Lemma Style_attrString_small (range1 range2 : map_order) (s : Style) (n1 n2 : nat) :
  style_small s = true ->
  fst (Style_attrString range1 s n1) = fst (Style_attrString range2 s n2).
Proof.
  destruct s as [[m|]]; [|reflexivity]. unfold style_small. cbn [Style_valueMap].
  intros Hsize. apply Nat.leb_le in Hsize.
  rewrite !Style_attrString_alloc. cbn [fst].
  pose proof (order_perm range1 n1 m) as H1.
  pose proof (order_perm range2 n2 m) as H2.
  rewrite <- length_map_to_list in Hsize.
  destruct (map_to_list m) as [|kv [|kv' l]]; cbn [length] in Hsize; [| |lia].
  - apply Permutation_nil_r in H1, H2. by rewrite H1, H2.
  - apply Permutation_singleton_r in H1, H2. by rewrite H1, H2.
Qed.

Lemma object_attrStrings_small (range1 range2 : map_order) (o : object)
    (n1 n2 : nat) :
  style_small (BaseAttrs_Style (object_BaseAttrs o)) = true ->
  fst (object_attrStrings range1 o n1) = fst (object_attrStrings range2 o n2).
Proof.
  intros Hsmall. destruct (object_attrStrings_eq range1 o n1) as (own & _ & Heq).
  rewrite !Heq, !BaseAttrs_attrStrings_eq. cbn [fst].
  by rewrite (Style_attrString_small range1 range2 _ n1 n2 Hsmall).
Qed.

Lemma chunks_contents_small (f g : ptr -> nat -> option (list string * nat))
    (rs : list ptr) :
  Forall (fun r => forall n1 n2, fst <$> f r n1 = fst <$> g r n2) rs ->
  forall n1 n2,
    fst <$> chunks_contents f rs n1 = fst <$> chunks_contents g rs n2.
Proof.
  induction 1 as [|r rs Hfg _ IH]; intros n1 n2; [reflexivity|].
  cbn [chunks_contents]. specialize (Hfg n1 n2).
  destruct (f r n1) as [[cs1 m1]|], (g r n2) as [[cs2 m2]|]; try discriminate;
    [|reflexivity].
  injection Hfg as <-. specialize (IH m1 m2).
  destruct (chunks_contents f rs m1) as [[cs3 m3]|],
           (chunks_contents g rs m2) as [[cs4 m4]|]; try discriminate;
    [|reflexivity].
  injection IH as <-. reflexivity.
Qed.

Lemma chunks_small (range1 range2 : map_order) (h : heap) :
  forall fuel r n1 n2,
    subtree_small fuel h r = true ->
    fst <$> chunks range1 fuel h r n1 = fst <$> chunks range2 fuel h r n2.
Proof.
  induction fuel as [|fuel IH]; intros r n1 n2 Hsmall; [reflexivity|].
  cbn [chunks subtree_small] in *. destruct (h !! r) as [o|] eqn:Ho; [|reflexivity].
  apply andb_prop in Hsmall as [Ho' Hbelow].
  pose proof (object_attrStrings_small range1 range2 o n1 n2 Ho') as Hattrs.
  destruct (object_attrStrings range1 o n1) as [attrs m1],
           (object_attrStrings range2 o n2) as [attrs2 m2].
  cbn [fst] in Hattrs. subst attrs2.
  destruct (object_container o) as [k|]; [|reflexivity].
  assert (Hin : fst <$> chunks_contents (chunks range1 fuel h) (contents k) m1
                = fst <$> chunks_contents (chunks range2 fuel h) (contents k) m2).
  { apply chunks_contents_small. rewrite forallb_forall in Hbelow.
    apply Forall_forall. intros q Hq k1 k2. apply IH, Hbelow.
    by apply list_elem_of_In. }
  destruct (chunks_contents (chunks range1 fuel h) (contents k) m1) as [[cs1 m3]|],
           (chunks_contents (chunks range2 fuel h) (contents k) m2) as [[cs2 m4]|];
    try discriminate; [|reflexivity].
  injection Hin as <-. reflexivity.
Qed.

(** On a store built by the package the fuel [length h] reaches the bottom
    of every tree, and what lies at the addresses before [r] plays no part:
    it is enough that the Styles from [r] on are small. *)
Lemma subtree_small_from (h : heap) :
  wf_heap h = true ->
  forall fuel r,
    r < length h -> length h - r <= fuel ->
    (forall q o, r <= q -> h !! q = Some o ->
       style_small (BaseAttrs_Style (object_BaseAttrs o)) = true) ->
    subtree_small fuel h r = true.
Proof.
  intros Hwf. induction fuel as [|fuel IH]; intros r Hr Hfuel Hfrom; [lia|].
  cbn [subtree_small]. destruct (h !! r) as [o|] eqn:Ho; [|reflexivity].
  apply andb_true_intro. split; [by apply (Hfrom r)|].
  destruct (object_container o) as [k|] eqn:Hk; [|reflexivity].
  apply forallb_forall. intros q Hq. apply list_elem_of_In in Hq.
  pose proof (proj1 (wf_heap_spec h) Hwf r o k Ho Hk) as Hall.
  rewrite Forall_forall in Hall. destruct (Hall q Hq) as [Hrq Hq'].
  apply IH; [exact Hq'|lia|]. intros q' o' Hq'' Ho'. apply (Hfrom q'); [lia|exact Ho'].
Qed.

(** C4, as the code has it: two renderings of a node agree byte for byte,
    whatever orders the map loops of the two executions pick, as long as no
    Style of the node or of a node below it holds more than one property;
    the Styles of the other nodes of the document play no part.  (The
    entries of a larger Style come in the order of the map loop, which Go
    leaves open.) *)
Theorem C4_renderings_agree_when_styles_hold_one_property
    (range1 range2 : map_order) (h : heap) (r : ptr) (n1 n2 : nat) :
  wf_heap h = true ->
  subtree_small (length h) h r = true ->
  r < length h ->
  exists out,
    render_text range1 h r n1 = Some out /\
    render_text range2 h r n2 = Some out.
Proof.
  intros Hwf Hsmall Hr.
  destruct (chunks_total range1 h Hwf (length h) r n1 Hr) as [[cs m1] H1]; [lia|].
  pose proof (chunks_small range1 range2 h (length h) r n1 n2 Hsmall) as Heq.
  rewrite H1 in Heq.
  destruct (chunks range2 (length h) h r n2) as [[cs2 m2]|] eqn:H2; [|discriminate].
  injection Heq as <-. exists (joined cs).
  split; eapply render_text_chunks; eassumption.
Qed.

(** C6, as the code has it: [Render] writes the XML declaration and then
    runs the rendering [RenderFragment] runs, with nothing in between.  So
    the full document is the declaration followed by the fragment whenever
    the two renderings visit the properties of each Style in the same order;
    and whatever the orders the map loops of the two executions pick, when
    no Style of the tree holds more than one property. *)
Theorem C6_Render_prefixes_the_declaration_to_the_fragment (h : heap) (s : ptr)
    (v : SVG) :
  wf_heap h = true ->
  h !! s = Some (OSVG v) ->
  let top := "<?xml version=" +:+ dq +:+ "1.0" +:+ dq +:+ "?>" in
  (forall (range : map_order) (b1 b2 : string) (n : nat),
     exists out n',
       SVG_RenderFragment range string buffer_Write h s b1 n
         = Some (None, b1 +:+ out, n') /\
       SVG_Render range string buffer_Write h s b2 n
         = Some (None, b2 +:+ top +:+ out, n')) /\
  (subtree_small (length h) h s = true ->
   forall (range1 range2 : map_order) (b1 b2 : string) (n1 n2 : nat),
     exists out n1' n2',
       SVG_RenderFragment range1 string buffer_Write h s b1 n1
         = Some (None, b1 +:+ out, n1') /\
       SVG_Render range2 string buffer_Write h s b2 n2
         = Some (None, b2 +:+ top +:+ out, n2')).
Proof.
  intros Hwf Hs top.
  assert (Hs' : s < length h) by (by eapply lookup_lt_Some).
  assert (Hfrag : forall range b n cs m,
            chunks range (length h) h s n = Some (cs, m) ->
            SVG_RenderFragment range string buffer_Write h s b n
            = Some (None, b +:+ joined cs, m)).
  { intros range b n cs m Hcs. unfold SVG_RenderFragment. rewrite Hs.
    destruct (render_hands_over range string buffer_Write _ _ _ _ _ _ Hcs
                b None (b +:+ joined cs)) as (n'' & -> & Hn);
      [by rewrite write_all_buffer|]. by rewrite (Hn eq_refl). }
  assert (Hfull : forall range b n cs m,
            chunks range (length h) h s n = Some (cs, m) ->
            SVG_Render range string buffer_Write h s b n
            = Some (None, b +:+ top +:+ joined cs, m)).
  { intros range b n cs m Hcs. unfold SVG_Render. rewrite Hs.
    cbn [buffer_Write]. fold top.
    destruct (render_hands_over range string buffer_Write _ _ _ _ _ _ Hcs
                (b +:+ top) None ((b +:+ top) +:+ joined cs)) as (n'' & -> & Hn);
      [by rewrite write_all_buffer|].
    rewrite (Hn eq_refl). by rewrite !append_assoc. }
  split.
  - intros range b1 b2 n.
    destruct (chunks_total range h Hwf (length h) s n Hs') as [[cs m] Hcs]; [lia|].
    exists (joined cs), m. split; [by apply Hfrag|by apply Hfull].
  - intros Hsmall range1 range2 b1 b2 n1 n2.
    destruct (chunks_total range1 h Hwf (length h) s n1 Hs') as [[cs m1] H1]; [lia|].
    pose proof (chunks_small range1 range2 h (length h) s n1 n2 Hsmall) as Heq.
    rewrite H1 in Heq.
    destruct (chunks range2 (length h) h s n2) as [[cs2 m2]|] eqn:H2; [|discriminate].
    injection Heq as <-. exists (joined cs), m1, m2.
    split; [by apply Hfrag|by apply Hfull].
Qed.

(** *** The shape of the text of a node *)

Lemma chunks_tag (range : map_order) (fuel : nat) (h : heap) (r : ptr) (n : nat)
    (cs : list string) (n' : nat) (o : object) :
  chunks range fuel h r n = Some (cs, n') ->
  h !! r = Some o ->
  exists rest,
    joined cs =
    "<" +:+ object_tag o +:+ " "
    +:+ strings_Join (fst (object_attrStrings range o n)) " "
    +:+ tag_end o +:+ rest.
Proof.
  intros Hcs Ho. destruct fuel as [|fuel]; [discriminate|].
  cbn [chunks] in Hcs. rewrite Ho in Hcs.
  destruct (object_attrStrings range o n) as [attrs m1]. cbn [fst].
  unfold tag_end.
  destruct o; cbn [object_container object_tag] in *;
    try (injection Hcs as <- _; exists ""; cbn [joined fold_right];
         by rewrite !append_assoc);
    (destruct (chunks_contents _ _ _) as [[cs0 m2]|]; [|discriminate];
     injection Hcs as <- _; eexists; cbn [joined fold_right];
     rewrite !append_assoc; reflexivity).
Qed.

Lemma render_text_tag (range : map_order) (h : heap) (r : ptr) (o : object)
    (n : nat) :
  wf_heap h = true ->
  h !! r = Some o ->
  exists rest,
    render_text range h r n =
    Some ("<" +:+ object_tag o +:+ " "
          +:+ strings_Join (fst (object_attrStrings range o n)) " "
          +:+ tag_end o +:+ rest).
Proof.
  intros Hwf Ho.
  assert (Hr : r < length h) by (by eapply lookup_lt_Some).
  destruct (chunks_total range h Hwf (length h) r n Hr) as [[cs m] Hcs]; [lia|].
  rewrite (render_text_chunks _ _ _ _ _ _ Hcs).
  destruct (chunks_tag _ _ _ _ _ _ _ _ Hcs Ho) as [rest ->]. by exists rest.
Qed.

(** The text of the contents of a container: the texts of the values in the
    order of the contents, each starting with the tag of its value. *)
Lemma chunks_contents_texts (range : map_order) (fuel : nat) (h : heap)
    (rs : list ptr) :
  forall n cs n',
    chunks_contents (chunks range fuel h) rs n = Some (cs, n') ->
    exists texts,
      joined cs = joined texts /\
      Forall2 (fun r t => exists o rest,
                 h !! r = Some o /\ t = "<" +:+ object_tag o +:+ " " +:+ rest)
              rs texts.
Proof.
  induction rs as [|r rs IH]; intros n cs n' Hcs.
  - injection Hcs as <- <-. exists []. split; [reflexivity|constructor].
  - cbn [chunks_contents] in Hcs.
    destruct (chunks range fuel h r n) as [[cs1 n1]|] eqn:Hr; [|discriminate].
    destruct (chunks_contents (chunks range fuel h) rs n1) as [[cs2 n2]|] eqn:Hrs;
      [|discriminate].
    injection Hcs as <- <-. destruct (IH _ _ _ Hrs) as (texts & Hjoined & Htexts).
    assert (Ho : exists o, h !! r = Some o).
    { destruct fuel; [discriminate|]. cbn [chunks] in Hr.
      destruct (h !! r) as [o|]; [by exists o|discriminate]. }
    destruct Ho as [o Ho].
    destruct (chunks_tag _ _ _ _ _ _ _ _ Hr Ho) as [rest Hrest].
    exists (joined cs1 :: texts). split.
    + rewrite joined_app, Hjoined. reflexivity.
    + constructor; [|exact Htexts]. exists o. eexists. split; [exact Ho|].
      rewrite Hrest. reflexivity.
Qed.

Lemma render_text_contents (range : map_order) (h : heap) (c : ptr) (oc : object)
    (k : container) (rs1 rs2 : list ptr) (n : nat) :
  wf_heap h = true -> h !! c = Some oc -> object_container oc = Some k ->
  contents k = rs1 ++ rs2 ->
  exists old texts,
    Forall2 (fun r t => exists o rest,
               h !! r = Some o /\ t = "<" +:+ object_tag o +:+ " " +:+ rest)
            rs2 texts /\
    render_text range h c n =
      Some (("<" +:+ name k +:+ " "
             +:+ strings_Join (fst (object_attrStrings range oc n)) " " +:+ ">")
            +:+ old +:+ joined texts +:+ "</" +:+ name k +:+ ">").
Proof.
  intros Hwf Hc Hk Hrs.
  pose proof (lookup_lt_Some _ _ _ Hc) as Hlt.
  destruct (chunks_total range h Hwf (length h) c n Hlt) as [[cs m] Hcs]; [lia|].
  rewrite (render_text_chunks _ _ _ _ _ _ Hcs).
  destruct (length h) as [|fuel]; [lia|]. cbn [chunks] in Hcs.
  rewrite Hc, Hk, Hrs in Hcs.
  destruct (object_attrStrings range oc n) as [attrs n1]. cbn [fst].
  rewrite chunks_contents_app in Hcs.
  destruct (chunks_contents (chunks range fuel h) rs1 n1) as [[cs1 n2]|];
    [|discriminate].
  destruct (chunks_contents (chunks range fuel h) rs2 n2) as [[cs2 n3]|] eqn:Hrs2;
    [|discriminate].
  injection Hcs as <- <-.
  destruct (chunks_contents_texts _ _ _ _ _ _ _ Hrs2) as (texts & Hjoined & Htexts).
  exists (joined cs1), texts. split; [exact Htexts|].
  cbn [joined fold_right].
  fold (joined ((cs1 ++ cs2) ++ ["</" +:+ name k +:+ ">"])).
  rewrite !joined_app, Hjoined. cbn [joined fold_right].
  by rewrite append_empty_r, !append_assoc.
Qed.

(** C3, as the code has it: the attribute fragments of a node are joined
    by single spaces with none of them left out; the tag is the element
    name, a space and that text.  The number of fragments is fixed by the
    kind of the node, and the joined text holds one space less than that
    number besides the characters of the fragments: an empty fragment adds no
    character of its own and keeps its separator. *)
Theorem C3_fragments_are_joined_unfiltered
    (range : map_order) (h : heap) (r : ptr) (o : object) (n : nat) :
  wf_heap h = true ->
  h !! r = Some o ->
  let attrs := fst (object_attrStrings range o n) in
  length attrs = attr_count o /\
  String.length (strings_Join attrs " ")
    = list_sum (map String.length attrs) + (attr_count o - 1) /\
  exists rest,
    render_text range h r n =
    Some ("<" +:+ object_tag o +:+ " " +:+ strings_Join attrs " "
          +:+ tag_end o +:+ rest).
Proof.
  intros Hwf Ho attrs.
  assert (Hlen : length attrs = attr_count o) by apply object_attrStrings_length.
  split; [exact Hlen|]. split.
  { rewrite strings_Join_length, Hlen. cbn [String.length]. lia. }
  by apply render_text_tag.
Qed.

(** *** Assigning to a Style *)

Lemma object_set_Style_tag (o : object) (s : Style) :
  object_tag (object_set_Style o s) = object_tag o.
Proof. by destruct o. Qed.

Lemma object_set_Style_container (o : object) (s : Style) :
  object_container (object_set_Style o s) = object_container o.
Proof. by destruct o. Qed.

Lemma object_set_Style_BaseAttrs (o : object) (s : Style) :
  BaseAttrs_Style (object_BaseAttrs (object_set_Style o s)) = s.
Proof. by destruct o. Qed.

Lemma wf_heap_set_Style (h : heap) (r : ptr) (o : object) (s : Style) :
  wf_heap h = true -> h !! r = Some o ->
  wf_heap (<[r := object_set_Style o s]> h) = true.
Proof.
  intros Hwf Ho. rewrite wf_heap_spec in Hwf. apply wf_heap_spec.
  intros i o' k Hi Hk. rewrite length_insert.
  destruct (decide (i = r)) as [->|Hne].
  - rewrite list_lookup_insert_eq in Hi by (by eapply lookup_lt_Some).
    injection Hi as <-. rewrite object_set_Style_container in Hk. by eapply Hwf.
  - rewrite list_lookup_insert_ne in Hi by done. by eapply Hwf.
Qed.

(** The attribute text of every value starts with the fragment of its
    Style and a space. *)
Lemma object_attrStrings_Style (range : map_order) (o : object) (n : nat) :
  exists rest,
    strings_Join (fst (object_attrStrings range o n)) " " =
    fst (Style_attrString range (BaseAttrs_Style (object_BaseAttrs o)) n)
    +:+ " " +:+ rest.
Proof.
  destruct (object_attrStrings_eq range o n) as (own & _ & Heq).
  rewrite Heq, BaseAttrs_attrStrings_eq. cbn [fst app]. eexists. reflexivity.
Qed.

(** C10: on a Style whose map was never allocated, [Get] allocates the empty
    map; the attribute fragment of the Style, empty before the call, is
    [style=] with an empty quoted value after it.  The tag of the node owning
    the Style, rendered before the call, has nothing but the separating space
    where, rendered after the call, it has that fragment. *)
Theorem C10_Get_allocates_and_changes_rendering
    (range : map_order) (key : string) (n : nat) (h : heap) (r : ptr) (o : object) :
  wf_heap h = true ->
  h !! r = Some o ->
  BaseAttrs_Style (object_BaseAttrs o) = mkStyle None ->
  let s := mkStyle None in
  let s' := snd (Style_Get s key) in
  Style_Get s key = ("", mkStyle (Some ∅)) /\
  fst (Style_attrString range s n) = "" /\
  fst (Style_attrString range s' n) = "style=" +:+ dq +:+ dq /\
  exists rest rest',
    render_text range h r n
      = Some ("<" +:+ object_tag o +:+ " " +:+ " " +:+ rest) /\
    render_text range (<[r := object_set_Style o s']> h) r n
      = Some ("<" +:+ object_tag o +:+ " " +:+ ("style=" +:+ dq +:+ dq)
              +:+ " " +:+ rest').
Proof.
  intros Hwf Ho Hnil s s'. split; [reflexivity|]. split; [reflexivity|].
  assert (Hfrag : fst (Style_attrString range s' n) = "style=" +:+ dq +:+ dq).
  { subst s' s. cbn [Style_Get valueMap_Get Style_valueMap snd fst].
    rewrite Style_attrString_alloc. cbn [fst]. by rewrite range_empty. }
  split; [exact Hfrag|].
  destruct (render_text_tag range h r o n Hwf Ho) as [rest Hrest].
  destruct (object_attrStrings_Style range o n) as [attrs Hattrs].
  rewrite Hattrs, Hnil in Hrest.
  pose proof (wf_heap_set_Style h r o s' Hwf Ho) as Hwf'.
  assert (Ho' : <[r := object_set_Style o s']> h !! r = Some (object_set_Style o s')).
  { apply list_lookup_insert_eq. by eapply lookup_lt_Some. }
  destruct (render_text_tag range _ r _ n Hwf' Ho') as [rest' Hrest'].
  destruct (object_attrStrings_Style range (object_set_Style o s') n)
    as [attrs' Hattrs'].
  rewrite Hattrs', object_set_Style_BaseAttrs, Hfrag, object_set_Style_tag in Hrest'.
  eexists _, _. split.
  - rewrite Hrest. cbn [Style_attrString Style_valueMap fst].
    rewrite !append_assoc. reflexivity.
  - rewrite Hrest'. rewrite !append_assoc. reflexivity.
Qed.

End Rendering.

(** ** Properties of the construction methods *)

Section Construction.

Context `{Runtime}.

Lemma object_container_set (o : object) (k k' : container) :
  object_container o = Some k ->
  object_container (object_set_container o k') = Some k'.
Proof. destruct o; cbn; intros; by simplify_eq. Qed.

Lemma object_set_container_twice (o : object) (k k' : container) :
  object_set_container (object_set_container o k) k' = object_set_container o k'.
Proof. by destruct o. Qed.

Lemma object_set_container_same (o : object) (k : container) :
  object_container o = Some k ->
  object_set_container o (mkContainer (name k) (contents k)) = o.
Proof. destruct o as [[]|[]| | | | | | |], k; cbn; intros; by simplify_eq. Qed.

Lemma object_attrStrings_set_container (range : map_order) (o : object)
    (k : container) (n : nat) :
  object_attrStrings range (object_set_container o k) n
  = object_attrStrings range o n.
Proof. by destruct o. Qed.

Lemma offers_set_container (o : object) (k : container) (k' : ctor) :
  offers (object_set_container o k) k' = offers o k'.
Proof. by destruct o. Qed.

Lemma offers_container (o : object) (k' : ctor) :
  offers o k' = true -> is_Some (object_container o).
Proof. destruct o; cbn; try discriminate; by eexists. Qed.

Lemma ctor_object_contents (k' : ctor) (k : container) :
  object_container (ctor_object k') = Some k -> contents k = [].
Proof. destruct k'; cbn; intros; by simplify_eq. Qed.

Lemma container_add_eq (h : heap) (c : ptr) (oc : object) (k : container)
    (o : object) :
  h !! c = Some oc -> object_container oc = Some k ->
  container_add c o h =
  Some (length h,
        <[c := object_set_container oc
                 (mkContainer (name k) (contents k ++ [length h]))]> (h ++ [o])).
Proof.
  intros Hc Hk. unfold container_add, alloc, append_contents.
  rewrite (lookup_app_l_Some _ _ _ _ Hc), Hk. reflexivity.
Qed.

Lemma construct_eq (h : heap) (c : ptr) (oc : object) (k' : ctor) :
  h !! c = Some oc -> offers oc k' = true ->
  construct c k' h = container_add c (ctor_object k') h.
Proof.
  intros Hc Hoff. destruct k'; try reflexivity.
  cbn [construct]. unfold SVG_Group. rewrite Hc.
  destruct oc; try discriminate. reflexivity.
Qed.

(** A sequence of construction calls on a container: the new values take
    the next addresses in the order of the calls, the addresses are appended
    in that order to the contents of the receiver, and that is all. *)
Lemma construct_all_eq (c : ptr) (ks : list ctor) :
  forall (h : heap) (oc : object) (k : container),
    h !! c = Some oc -> object_container oc = Some k ->
    Forall (fun k' => offers oc k' = true) ks ->
    construct_all c ks h =
    Some (seq (length h) (length ks),
          <[c := object_set_container oc
                   (mkContainer (name k)
                      (contents k ++ seq (length h) (length ks)))]>
            (h ++ map ctor_object ks)).
Proof.
  induction ks as [|k' ks IH]; intros h oc k Hc Hk Hoff.
  - cbn. rewrite !app_nil_r, (object_set_container_same _ _ Hk).
    by rewrite (list_insert_id _ _ _ Hc).
  - apply Forall_cons in Hoff as [Hoff Hoffs]. cbn [construct_all].
    rewrite (construct_eq _ _ _ _ Hc Hoff), (container_add_eq _ _ _ _ _ Hc Hk).
    assert (Hlt : c < length h) by (by eapply lookup_lt_Some).
    set (oc1 := object_set_container oc _).
    assert (Hc1 : <[c := oc1]> (h ++ [ctor_object k']) !! c = Some oc1).
    { apply list_lookup_insert_eq. rewrite length_app. lia. }
    rewrite (IH _ oc1 _ Hc1 (object_container_set _ _ _ Hk)).
    2: { eapply Forall_impl; [exact Hoffs|]. intros k'' Hk''. subst oc1.
         by rewrite offers_set_container. }
    rewrite length_insert, length_app. cbn [length name contents map].
    rewrite Nat.add_1_r. subst oc1. rewrite object_set_container_twice.
    f_equal. f_equal.
    rewrite insert_app_l by (rewrite length_insert, length_app; cbn; lia).
    rewrite list_insert_insert_eq.
    rewrite <- (insert_app_l (h ++ [ctor_object k'])) by (rewrite length_app; lia).
    rewrite <- !app_assoc. reflexivity.
Qed.

(** The stores the package builds start empty and grow by [NewSVG] and by
    the construction methods; all of them pass [wf_heap]. *)
Lemma wf_heap_NewSVG (h : heap) (width' height' : float64) :
  wf_heap h = true -> wf_heap (snd (NewSVG width' height' h)) = true.
Proof.
  intros Hwf. rewrite wf_heap_spec in Hwf. apply wf_heap_spec.
  unfold NewSVG, alloc. cbn [snd]. intros i o k Hi Hk. rewrite length_app.
  destruct (decide (i < length h)) as [Hlt|Hge].
  - rewrite lookup_app_l in Hi by done.
    eapply Forall_impl; [exact (Hwf _ _ _ Hi Hk)|]. cbn. intros; lia.
  - rewrite lookup_app_r in Hi by lia.
    destruct (i - length h) as [|j]; [|discriminate].
    injection Hi as <-. injection Hk as <-. constructor.
Qed.

(** The store after the calls, as [construct_all_eq] gives it. *)
Lemma lookup_constructed_new (h : heap) (c : ptr) (oc' : object) (ks : list ctor)
    (j : nat) (k' : ctor) :
  c < length h -> ks !! j = Some k' ->
  <[c := oc']> (h ++ map ctor_object ks) !! (length h + j) = Some (ctor_object k').
Proof.
  intros Hc Hj. rewrite list_lookup_insert_ne by lia.
  rewrite lookup_app_r by lia.
  replace (length h + j - length h) with j by lia.
  change (map ctor_object ks) with (ctor_object <$> ks).
  by rewrite list_lookup_fmap, Hj.
Qed.

Lemma lookup_constructed_old (h : heap) (c : ptr) (oc' : object) (ks : list ctor)
    (q : ptr) :
  q <> c -> q < length h ->
  <[c := oc']> (h ++ map ctor_object ks) !! q = h !! q.
Proof.
  intros Hq Hlt. rewrite list_lookup_insert_ne by lia. by apply lookup_app_l.
Qed.

Lemma wf_heap_constructed (h : heap) (c : ptr) (oc : object) (k : container)
    (ks : list ctor) :
  wf_heap h = true -> h !! c = Some oc -> object_container oc = Some k ->
  wf_heap (<[c := object_set_container oc
                     (mkContainer (name k)
                        (contents k ++ seq (length h) (length ks)))]>
             (h ++ map ctor_object ks)) = true.
Proof.
  intros Hwf Hc Hk. pose proof (lookup_lt_Some _ _ _ Hc) as Hlt.
  rewrite wf_heap_spec in Hwf. apply wf_heap_spec. intros i o ko Hi Hko.
  rewrite length_insert, length_app, length_map.
  destruct (decide (i = c)) as [->|Hne].
  - rewrite list_lookup_insert_eq in Hi by (rewrite length_app; lia).
    injection Hi as <-. rewrite (object_container_set _ _ _ Hk) in Hko.
    injection Hko as <-. cbn [contents]. apply Forall_app. split.
    + eapply Forall_impl; [exact (Hwf _ _ _ Hc Hk)|]. cbn. intros; lia.
    + apply Forall_seq. intros; lia.
  - rewrite list_lookup_insert_ne in Hi by done.
    destruct (decide (i < length h)) as [Hi'|Hi'].
    + rewrite lookup_app_l in Hi by done.
      eapply Forall_impl; [exact (Hwf _ _ _ Hi Hko)|]. cbn. intros; lia.
    + rewrite lookup_app_r in Hi by lia.
      change (map ctor_object ks) with (ctor_object <$> ks) in Hi.
      rewrite list_lookup_fmap in Hi.
      destruct (ks !! (i - length h)) as [k'|]; [|discriminate].
      injection Hi as <-. by rewrite (ctor_object_contents _ _ Hko).
Qed.

(** A value fresh from a construction call renders the same wherever it
    lies and whenever it is rendered. *)
Lemma chunks_fresh (range : map_order) (k' : ctor) (fuel : nat) (h : heap)
    (r : ptr) (n : nat) :
  h !! r = Some (ctor_object k') ->
  chunks range (S fuel) h r n = Some (ctor_chunks range k', n).
Proof.
  intros Hr. cbn [chunks]. rewrite Hr. by destruct k'.
Qed.

Lemma chunks_contents_fresh (range : map_order) (fuel : nat) (h : heap)
    (ks : list ctor) :
  forall (i : ptr) (n : nat),
    (forall j k', ks !! j = Some k' -> h !! (i + j) = Some (ctor_object k')) ->
    chunks_contents (chunks range (S fuel) h) (seq i (length ks)) n
    = Some (flat_map (ctor_chunks range) ks, n).
Proof.
  induction ks as [|k' ks IH]; intros i n Hnew; [reflexivity|].
  cbn [length seq chunks_contents flat_map].
  rewrite (chunks_fresh range k') by (rewrite <- (Nat.add_0_r i); by apply Hnew).
  rewrite IH; [reflexivity|].
  intros j k'' Hj. replace (S i + j) with (i + S j) by lia. by apply Hnew.
Qed.

Lemma ctor_text_eq (range : map_order) (k' : ctor) :
  ctor_text range k' = joined (ctor_chunks range k').
Proof.
  unfold ctor_text.
  by rewrite (render_text_chunks range [ctor_object k'] 0 0 (ctor_chunks range k') 0)
    by (by apply (chunks_fresh range k' 0 [ctor_object k'] 0 0)).
Qed.

Lemma joined_ctor_chunks (range : map_order) (ks : list ctor) :
  joined (flat_map (ctor_chunks range) ks) = joined (map (ctor_text range) ks).
Proof.
  induction ks as [|k' ks IH]; [reflexivity|].
  cbn [flat_map map]. rewrite joined_app.
  change (joined (ctor_text range k' :: map (ctor_text range) ks))
    with (ctor_text range k' +:+ joined (map (ctor_text range) ks)).
  by rewrite IH, ctor_text_eq.
Qed.

(** The rendering of a container before and after a sequence of
    construction calls on it: the same opening tag, the same text for the
    earlier contents, then the text of the new values in the order of the
    calls, and the closing tag. *)
Lemma render_constructed (range : map_order) (h : heap) (c : ptr) (oc : object)
    (k : container) (ks : list ctor) (n : nat) :
  wf_heap h = true -> h !! c = Some oc -> object_container oc = Some k ->
  let h' := <[c := object_set_container oc
                      (mkContainer (name k)
                         (contents k ++ seq (length h) (length ks)))]>
              (h ++ map ctor_object ks) in
  let opening := "<" +:+ name k +:+ " "
                 +:+ strings_Join (fst (object_attrStrings range oc n)) " "
                 +:+ ">" in
  let closing := "</" +:+ name k +:+ ">" in
  exists old,
    render_text range h c n = Some (opening +:+ old +:+ closing) /\
    render_text range h' c n =
      Some (opening +:+ old +:+ joined (map (ctor_text range) ks) +:+ closing).
Proof.
  intros Hwf Hc Hk h' opening closing.
  pose proof (lookup_lt_Some _ _ _ Hc) as Hlt.
  destruct (chunks_total range h Hwf (length h) c n Hlt) as [[cs m] Hcs]; [lia|].
  pose proof Hcs as Hcs0.
  assert (Hlen : exists fuel, length h = S fuel) by (exists (length h - 1); lia).
  destruct Hlen as [fuel Hlen]. rewrite Hlen in Hcs at 1.
  cbn [chunks] in Hcs. rewrite Hc, Hk in Hcs.
  subst opening.
  destruct (object_attrStrings range oc n) as [attrs n1] eqn:Hattrs.
  destruct (chunks_contents (chunks range fuel h) (contents k) n1)
    as [[old n2]|] eqn:Hold; [|discriminate].
  injection Hcs as <- <-. exists (joined old). split.
  { rewrite (render_text_chunks _ _ _ _ _ _ Hcs0).
    subst closing. cbn [joined fold_right fst].
    fold (joined (old ++ ["</" +:+ name k +:+ ">"])).
    rewrite joined_app. cbn [joined fold_right].
    by rewrite append_empty_r, !append_assoc. }
  assert (Hlen' : length h' = S (fuel + length ks)).
  { subst h'. rewrite length_insert, length_app, length_map. lia. }
  assert (Hc' : h' !! c = Some (object_set_container oc
                  (mkContainer (name k) (contents k ++ seq (length h) (length ks))))).
  { subst h'. apply list_lookup_insert_eq. rewrite length_app. lia. }
  assert (Hold' : chunks_contents (chunks range (fuel + length ks) h') (contents k) n1
                  = Some (old, n2)).
  { rewrite wf_heap_spec in Hwf. pose proof (Hwf _ _ _ Hc Hk) as Hk'.
    eapply (chunks_contents_ext _ _ (fun r' => c < r' < length h));
      [|exact Hk'|exact Hold].
    intros r' n' x' Hr' Hx'.
    apply (chunks_fuel_mono range h' fuel); [|lia].
    apply (chunks_frame range h h' c); [by apply wf_heap_spec| |lia|exact Hx'].
    intros q Hq1 Hq2. subst h'. apply lookup_constructed_old; lia. }
  assert (Hnew : chunks_contents (chunks range (fuel + length ks) h')
                   (seq (length h) (length ks)) n2
                 = Some (flat_map (ctor_chunks range) ks, n2)).
  { assert (Hks : ks = [] \/ length ks <> 0) by (destruct ks; cbn; auto).
    destruct Hks as [Hks|Hks]; [by rewrite Hks at 2 3|].
    replace (fuel + length ks) with (S (fuel + length ks - 1)) by lia.
    apply chunks_contents_fresh. intros j k' Hj. subst h'.
    apply lookup_constructed_new; [lia|exact Hj]. }
  assert (Hcs' : chunks range (length h') h' c n
                 = Some (("<" +:+ name k +:+ " " +:+ strings_Join attrs " " +:+ ">")
                           :: (old ++ flat_map (ctor_chunks range) ks)
                              ++ ["</" +:+ name k +:+ ">"], n2)).
  { rewrite Hlen'. cbn [chunks]. rewrite Hc'.
    rewrite object_attrStrings_set_container, Hattrs.
    rewrite (object_container_set _ _ _ Hk). cbn [name contents].
    by rewrite chunks_contents_app, Hold', Hnew. }
  rewrite (render_text_chunks _ _ _ _ _ _ Hcs').
  subst closing. cbn [joined fold_right fst].
  fold (joined ((old ++ flat_map (ctor_chunks range) ks) ++ ["</" +:+ name k +:+ ">"])).
  rewrite !joined_app. cbn [joined fold_right].
  by rewrite append_empty_r, !append_assoc, joined_ctor_chunks.
Qed.

Lemma contents_at_lookup (h : heap) (c : ptr) (o : object) (k : container) :
  h !! c = Some o -> object_container o = Some k -> contents_at h c = contents k.
Proof. intros Hc Hk. unfold contents_at. by rewrite Hc, Hk. Qed.

(** The text of a fresh value starts with its tag; that of a fresh
    container is its opening tag followed at once by its closing tag. *)
Lemma ctor_text_tag (range : map_order) (k' : ctor) :
  exists rest, ctor_text range k' = "<" +:+ ctor_tag k' +:+ " " +:+ rest.
Proof. rewrite ctor_text_eq. destruct k'; eexists; reflexivity. Qed.

Lemma ctor_text_container (range : map_order) (k' : ctor) (kc : container) :
  object_container (ctor_object k') = Some kc ->
  exists attrs,
    ctor_text range k' =
    ("<" +:+ name kc +:+ " " +:+ attrs +:+ ">") +:+ "</" +:+ name kc +:+ ">".
Proof.
  rewrite ctor_text_eq.
  destruct k'; cbn [ctor_object object_container]; intros Hkc; simplify_eq;
    eexists; unfold ctor_chunks; cbn [chunks]; cbn;
    by rewrite append_empty_r.
Qed.

Lemma SVG_Group_on_Group (h : heap) (c : ptr) (g : Group) :
  h !! c = Some (OGroup g) -> SVG_Group c h = None.
Proof. intros Hc. unfold SVG_Group. by rewrite Hc. Qed.

Lemma ctor_object_tag (k' : ctor) : object_tag (ctor_object k') = ctor_tag k'.
Proof. by destruct k'. Qed.

(** The texts of the values at the addresses of new children start with
    the tags of the calls, as long as the values keep their kinds. *)
Lemma texts_of_new_children (h : heap) (ks : list ctor) :
  forall (i : ptr) (texts : list string),
    (forall j k', ks !! j = Some k' ->
       exists o, h !! (i + j) = Some o /\ object_tag o = ctor_tag k') ->
    Forall2 (fun r t => exists o rest,
               h !! r = Some o /\ t = "<" +:+ object_tag o +:+ " " +:+ rest)
            (seq i (length ks)) texts ->
    Forall2 (fun k' t => exists rest, t = "<" +:+ ctor_tag k' +:+ " " +:+ rest)
            ks texts.
Proof.
  induction ks as [|k' ks IH]; intros i texts Hkinds Htexts.
  - inversion Htexts. constructor.
  - cbn [length seq] in Htexts.
    inversion Htexts as [|r t rs ts (o & rest & Ho & Ht) Hrest]; subst.
    constructor.
    + destruct (Hkinds 0 k' eq_refl) as (o' & Ho' & Htag).
      rewrite Nat.add_0_r, Ho in Ho'. injection Ho' as <-.
      exists rest. by rewrite <- Htag.
    + apply (IH (S i)); [|exact Hrest].
      intros j k'' Hj. replace (S i + j) with (i + S j) by lia. by apply Hkinds.
Qed.

(** C5: after any sequence of construction calls on a container, the new
    children lie in its contents behind the earlier ones and in the order of
    the calls, one child per call whatever the kinds.  The rendering of the
    container is then its opening tag, the text of the earlier contents, the
    text of each new child in the order of the calls, and the closing tag;
    and whatever is done to the nodes afterwards, as long as the contents of
    the container are those, its rendering shows the tags of the new
    children in the order of the calls. *)
Theorem C5_children_render_in_call_order (range : map_order) (h : heap)
    (c : ptr) (oc : object) (k : container) (ks : list ctor) (n : nat) :
  wf_heap h = true ->
  h !! c = Some oc ->
  object_container oc = Some k ->
  Forall (fun k' => offers oc k' = true) ks ->
  let news := seq (length h) (length ks) in
  let opening := "<" +:+ name k +:+ " "
                 +:+ strings_Join (fst (object_attrStrings range oc n)) " "
                 +:+ ">" in
  let closing := "</" +:+ name k +:+ ">" in
  exists h' old,
    construct_all c ks h = Some (news, h') /\
    contents_at h' c = contents_at h c ++ news /\
    (forall j k', ks !! j = Some k' ->
       h' !! (length h + j) = Some (ctor_object k') /\
       exists rest, ctor_text range k' = "<" +:+ ctor_tag k' +:+ " " +:+ rest) /\
    render_text range h c n = Some (opening +:+ old +:+ closing) /\
    render_text range h' c n =
      Some (opening +:+ old +:+ joined (map (ctor_text range) ks) +:+ closing) /\
    forall (h'' : heap) (oc'' : object) (k'' : container) (m : nat),
      wf_heap h'' = true ->
      h'' !! c = Some oc'' ->
      object_container oc'' = Some k'' ->
      contents k'' = contents_at h' c ->
      (forall j k', ks !! j = Some k' ->
         exists o, h'' !! (length h + j) = Some o /\ object_tag o = ctor_tag k') ->
      exists old'' texts,
        Forall2 (fun k' t => exists rest, t = "<" +:+ ctor_tag k' +:+ " " +:+ rest)
                ks texts /\
        render_text range h'' c m =
          Some (("<" +:+ name k'' +:+ " "
                 +:+ strings_Join (fst (object_attrStrings range oc'' m)) " "
                 +:+ ">")
                +:+ old'' +:+ joined texts +:+ "</" +:+ name k'' +:+ ">").
Proof.
  intros Hwf Hc Hk Hoff news opening closing.
  pose proof (lookup_lt_Some _ _ _ Hc) as Hlt.
  destruct (render_constructed range h c oc k ks n Hwf Hc Hk) as (old & Hold & Hnew).
  assert (Hcontents :
    contents_at (<[c := object_set_container oc
                          (mkContainer (name k)
                             (contents k ++ seq (length h) (length ks)))]>
                   (h ++ map ctor_object ks)) c
    = contents_at h c ++ news).
  { rewrite (contents_at_lookup _ _ _ _ Hc Hk).
    erewrite contents_at_lookup;
      [|apply list_lookup_insert_eq; rewrite length_app; lia
       |by eapply object_container_set]. reflexivity. }
  eexists _, old. split; [by apply construct_all_eq|]. split; [exact Hcontents|].
  split; [|split; [exact Hold|split; [exact Hnew|]]].
  - intros j k' Hj. split; [by apply lookup_constructed_new|apply ctor_text_tag].
  - intros h'' oc'' k'' m Hwf'' Hc'' Hk'' Hsame Hkinds.
    rewrite Hcontents, (contents_at_lookup _ _ _ _ Hc Hk) in Hsame.
    destruct (render_text_contents range h'' c oc'' k'' (contents k) news m
                Hwf'' Hc'' Hk'' Hsame) as (old'' & texts & Htexts & Hrender).
    exists old'', texts. split; [|exact Hrender].
    by apply (texts_of_new_children h'' ks (length h)).
Qed.

(** C9, as the code has it: a construction call that the receiver offers
    (every method of [container] on a document root or a group, and [Group]
    on a document root) allocates a value at an address not in use before,
    appends that address to the contents of the receiver, changes nothing
    else and returns the address; the child renders inside the tags of the
    receiver, behind the earlier contents, and a child that is a container
    renders as its opening tag followed by its closing tag. *)
Theorem C9_offered_call_appends_fresh_child (range : map_order) (h : heap)
    (c : ptr) (oc : object) (k' : ctor) (n : nat) :
  wf_heap h = true ->
  h !! c = Some oc ->
  offers oc k' = true ->
  exists h' k old,
    object_container oc = Some k /\
    construct c k' h = Some (length h, h') /\
    h !! length h = None /\
    h' !! length h = Some (ctor_object k') /\
    contents_at h' c = contents_at h c ++ [length h] /\
    (forall q, q <> c -> q < length h -> h' !! q = h !! q) /\
    wf_heap h' = true /\
    render_text range h c n
      = Some (("<" +:+ name k +:+ " "
               +:+ strings_Join (fst (object_attrStrings range oc n)) " " +:+ ">")
              +:+ old +:+ "</" +:+ name k +:+ ">") /\
    render_text range h' c n
      = Some (("<" +:+ name k +:+ " "
               +:+ strings_Join (fst (object_attrStrings range oc n)) " " +:+ ">")
              +:+ old +:+ ctor_text range k' +:+ "</" +:+ name k +:+ ">") /\
    (forall kc, object_container (ctor_object k') = Some kc ->
       exists attrs,
         ctor_text range k' =
         ("<" +:+ name kc +:+ " " +:+ attrs +:+ ">") +:+ "</" +:+ name kc +:+ ">").
Proof.
  intros Hwf Hc Hoff.
  destruct (offers_container _ _ Hoff) as [k Hk].
  pose proof (lookup_lt_Some _ _ _ Hc) as Hlt.
  destruct (render_constructed range h c oc k [k'] n Hwf Hc Hk) as (old & Hold & Hnew).
  pose proof (construct_all_eq c [k'] h oc k Hc Hk) as Hall.
  cbn [construct_all length seq map] in Hall, Hnew.
  eexists _, k, old. split; [exact Hk|]. split.
  { rewrite (construct_eq _ _ _ _ Hc Hoff). by apply container_add_eq. }
  split; [by apply lookup_ge_None_2|]. split.
  { pose proof (lookup_constructed_new h c
                  (object_set_container oc
                     (mkContainer (name k) (contents k ++ [length h])))
                  [k'] 0 k' Hlt eq_refl) as Hfresh.
    by rewrite Nat.add_0_r in Hfresh. }
  split.
  { rewrite (contents_at_lookup _ _ _ _ Hc Hk).
    erewrite contents_at_lookup;
      [|apply list_lookup_insert_eq; rewrite length_app; lia
       |by eapply object_container_set]. reflexivity. }
  split; [intros q Hq1 Hq2; by apply (lookup_constructed_old h c _ [k'])|].
  split; [exact (wf_heap_constructed h c oc k [k'] Hwf Hc Hk)|].
  split; [exact Hold|]. split.
  - rewrite Hnew. cbn [joined fold_right]. by rewrite append_empty_r.
  - apply ctor_text_container.
Qed.

End Construction.

(** ** Further properties: Style, Transform *)

Section Bundles.

Context `{Runtime}.

(** X1: [Get] after [Set] returns the value set, whether or not the map
    was allocated before, and leaves the map as [Set] left it; the values of
    the other keys are those from before the [Set]. *)
Theorem X1_Get_after_Set (m : valueMap) (k v k' : string) :
  k' <> k ->
  valueMap_Get (valueMap_Set m k v) k = (v, valueMap_Set m k v) /\
  fst (valueMap_Get (valueMap_Set m k v) k') = fst (valueMap_Get m k').
Proof.
  intros Hne. unfold valueMap_Get, valueMap_Set. cbn [fst]. split.
  - by rewrite lookup_insert_eq.
  - by rewrite lookup_insert_ne.
Qed.

(** X2: [Get] of a key that is not in the map, or that [Unset] has removed,
    returns the empty string, the same as for a key set to the empty string;
    [Unset] leaves the values of the other keys alone, and a [Get] changes
    no value a later [Get] returns. *)
Theorem X2_Get_of_missing_key (m : valueMap) (k k' : string) :
  k' <> k ->
  fst (valueMap_Get None k) = "" /\
  fst (valueMap_Get (valueMap_Unset m k) k) = "" /\
  fst (valueMap_Get (valueMap_Unset m k) k)
    = fst (valueMap_Get (valueMap_Set m k "") k) /\
  fst (valueMap_Get (valueMap_Unset m k) k') = fst (valueMap_Get m k') /\
  fst (valueMap_Get (snd (valueMap_Get m k)) k') = fst (valueMap_Get m k').
Proof.
  intros Hne. unfold valueMap_Get, valueMap_Set, valueMap_Unset. cbn [fst snd].
  split; [reflexivity|]. split; [by rewrite lookup_delete_eq|].
  split; [by rewrite lookup_delete_eq, lookup_insert_eq|].
  split; [by rewrite lookup_delete_ne|reflexivity].
Qed.

Lemma Style_call_allocates (s : Style) (c : style_call) :
  is_Some (Style_valueMap (Style_call s c)).
Proof. destruct c, s as [[m|]]; by eexists. Qed.

Lemma Style_calls_keep_allocated (calls : list style_call) (s : Style) :
  is_Some (Style_valueMap s) ->
  is_Some (Style_valueMap (fold_left Style_call calls s)).
Proof.
  revert s. induction calls as [|c calls IH]; intros s Hs; [exact Hs|].
  cbn [fold_left]. apply IH, Style_call_allocates.
Qed.

(** X3: no call on a Style gives back a map that is not allocated: after
    one call or more, whichever they are, the map is allocated and the Style
    yields a fragment that is not empty, even when every key was unset
    again. *)
Theorem X3_Style_stays_allocated (range : map_order) (s : Style)
    (calls : list style_call) (n : nat) :
  calls <> [] ->
  Style_valueMap (fold_left Style_call calls s) <> None /\
  fst (Style_attrString range (fold_left Style_call calls s) n) <> "".
Proof.
  intros Hcalls. destruct calls as [|c calls]; [done|]. cbn [fold_left].
  destruct (Style_calls_keep_allocated calls _ (Style_call_allocates s c)) as [m Hm].
  destruct (fold_left Style_call calls (Style_call s c)) as [vm].
  cbn [Style_valueMap] in Hm. subst vm. split; [discriminate|].
  rewrite Style_attrString_alloc. cbn [fst]. discriminate.
Qed.

Lemma range_singleton (range : map_order) (n : nat) (k v : string) :
  range n {[ k := v ]} = [(k, v)].
Proof.
  apply Permutation_singleton_r. rewrite (order_perm range n).
  by rewrite map_to_list_singleton.
Qed.

(** X4: a key set twice on a fresh Style shows once, with the value set
    last: the fragment is [style=] and the quoted text [key:value]; when the
    key is unset again the fragment is [style=] with an empty quoted text,
    not the empty fragment of the fresh Style. *)
Theorem X4_Style_last_Set_wins (range : map_order) (k v1 v2 : string) (n : nat) :
  fst (Style_attrString range (Style_Set (Style_Set (mkStyle None) k v1) k v2) n)
    = "style=" +:+ dq +:+ (k +:+ ":" +:+ v2) +:+ dq /\
  fst (Style_attrString range (Style_Unset (Style_Set (mkStyle None) k v1) k) n)
    = "style=" +:+ dq +:+ dq.
Proof.
  unfold Style_Set, Style_Unset, valueMap_Set, valueMap_Unset.
  cbn [Style_valueMap]. rewrite !Style_attrString_alloc. cbn [fst]. split.
  - rewrite insert_insert_eq, insert_empty, range_singleton. reflexivity.
  - rewrite delete_insert_eq, delete_empty, range_empty. reflexivity.
Qed.

Lemma Transform_call_appends (t : Transform) (c : transform_call) :
  transforms (Transform_call t c)
  = transforms t ++ transforms (Transform_call (mkTransform []) c).
Proof. by destruct c. Qed.

(** X5: the calls on a Transform only append: after any sequence of calls
    the list holds the earlier entries, then one entry per call in the order
    of the calls, the entry a call makes being the same whatever came before;
    and the fragment of a Transform is never empty, it starts with
    [transform=] even when no call was made. *)
Theorem X5_Transform_appends_in_call_order (t : Transform)
    (calls : list transform_call) :
  let t' := fold_left Transform_call calls t in
  transforms t'
    = transforms t
      ++ flat_map (fun c => transforms (Transform_call (mkTransform []) c)) calls /\
  length (transforms t') = length (transforms t) + length calls /\
  Transform_attrString t'
    = "transform=" +:+ dq +:+ strings_Join (transforms t') " " +:+ dq.
Proof.
  cbn zeta.
  assert (Hall : transforms (fold_left Transform_call calls t)
                 = transforms t
                   ++ flat_map (fun c => transforms (Transform_call (mkTransform []) c))
                        calls).
  { revert t. induction calls as [|c calls IH]; intros t.
    - cbn. by rewrite app_nil_r.
    - cbn [fold_left flat_map]. rewrite IH, Transform_call_appends.
      by rewrite <- app_assoc. }
  split; [exact Hall|]. split; [|reflexivity].
  rewrite Hall, length_app. f_equal. clear.
  induction calls as [|c calls IH]; [reflexivity|].
  cbn [flat_map]. rewrite length_app, IH. by destruct c.
Qed.

(** X18: the order in which two different keys are set plays no part in
    the map that results, whatever the map held before; and unsetting a key
    that was set on a map which did not hold it gives back the entries the
    map had (though the map is now allocated even if it was not before). *)
Theorem X18_Set_commutes_and_Unset_undoes (m : valueMap) (k1 k2 v1 v2 : string) :
  (k1 <> k2 ->
   valueMap_Set (valueMap_Set m k1 v1) k2 v2
     = valueMap_Set (valueMap_Set m k2 v2) k1 v1) /\
  ((forall m0, m = Some m0 -> m0 !! k1 = None) ->
   valueMap_Unset (valueMap_Set m k1 v1) k1
     = Some (match m with None => ∅ | Some m0 => m0 end)).
Proof.
  unfold valueMap_Set, valueMap_Unset. split.
  - intros Hne. f_equal. by apply insert_insert_ne.
  - intros Hfree. f_equal. rewrite delete_insert_eq. apply delete_id.
    destruct m as [m0|]; [by apply Hfree|apply lookup_empty].
Qed.

End Bundles.

(** ** Further properties: the path encoder *)

Section Encoder.

Context `{Runtime}.

Lemma fold_left_append {A : Type} (f : A -> list string) (l : list A)
    (out : list string) :
  fold_left (fun out x => out ++ f x) l out = out ++ flat_map f l.
Proof.
  revert out. induction l as [|x l IH]; intros out; cbn.
  - by rewrite app_nil_r.
  - by rewrite IH, <- app_assoc.
Qed.

(** X6: the strings of a command body are the numbers of its argument
    groups in the order given, each group in the order of its fields: two per
    point, one per length, six per cubic curve, four per smooth or quadratic
    curve; none is dropped, and [isAbs] plays no part. *)
Theorem X6_cmdBody_strings_flatten_in_order (b : cmdBody) :
  cmdBody_strings b =
  match b with
  | mCmd pts | elCmd pts _ | tCmd pts _ =>
      flat_map (fun p => [fmt_g (Point_X p); fmt_g (Point_Y p)]) pts
  | zCmd => []
  | hCmd xs _ | vCmd xs _ => map fmt_g xs
  | cCmd cvs _ =>
      flat_map (fun cv => [fmt_g (CCurve_X1 cv); fmt_g (CCurve_Y1 cv);
                           fmt_g (CCurve_X2 cv); fmt_g (CCurve_Y2 cv);
                           fmt_g (CCurve_X cv); fmt_g (CCurve_Y cv)]) cvs
  | sCmd cvs _ =>
      flat_map (fun cv => [fmt_g (SCurve_X2 cv); fmt_g (SCurve_Y2 cv);
                           fmt_g (SCurve_X cv); fmt_g (SCurve_Y cv)]) cvs
  | qCmd cvs _ =>
      flat_map (fun cv => [fmt_g (QCurve_X1 cv); fmt_g (QCurve_Y1 cv);
                           fmt_g (QCurve_X cv); fmt_g (QCurve_Y cv)]) cvs
  end /\
  length (cmdBody_strings b) =
  match b with
  | mCmd pts | elCmd pts _ | tCmd pts _ => 2 * length pts
  | zCmd => 0
  | hCmd xs _ | vCmd xs _ => length xs
  | cCmd cvs _ => 6 * length cvs
  | sCmd cvs _ | qCmd cvs _ => 4 * length cvs
  end.
Proof.
  assert (Hlen : forall (A : Type) (f : A -> list string) (k : nat) (l : list A),
            (forall x, length (f x) = k) -> length (flat_map f l) = k * length l).
  { intros A f k l Hf. induction l as [|x l IH]; cbn [flat_map length]; [lia|].
    rewrite length_app, Hf, IH. lia. }
  destruct b; cbn [cmdBody_strings]; unfold point_strings;
    rewrite ?(fold_left_append (fun p => [fmt_g (Point_X p); fmt_g (Point_Y p)])),
            ?(fold_left_append (fun x => [fmt_g x])),
            ?(fold_left_append
                (fun cv => [fmt_g (CCurve_X1 cv); fmt_g (CCurve_Y1 cv);
                            fmt_g (CCurve_X2 cv); fmt_g (CCurve_Y2 cv);
                            fmt_g (CCurve_X cv); fmt_g (CCurve_Y cv)])),
            ?(fold_left_append
                (fun cv => [fmt_g (SCurve_X2 cv); fmt_g (SCurve_Y2 cv);
                            fmt_g (SCurve_X cv); fmt_g (SCurve_Y cv)])),
            ?(fold_left_append
                (fun cv => [fmt_g (QCurve_X1 cv); fmt_g (QCurve_Y1 cv);
                            fmt_g (QCurve_X cv); fmt_g (QCurve_Y cv)]));
    cbn [app];
    try (split; [reflexivity|by apply Hlen]);
    try (split; [reflexivity|reflexivity]).
  - split; [|by rewrite (Hlen _ _ 1), Nat.mul_1_l].
    induction xs as [|x xs IH]; cbn; congruence.
  - split; [|by rewrite (Hlen _ _ 1), Nat.mul_1_l].
    induction ys as [|x xs IH]; cbn; congruence.
Qed.

Lemma Path_call_appends (p : Path) (c : path_call) :
  d (Path_call p c) = d p ++ d (Path_call (mkPath ShapeAttrs_zero [] f0) c) /\
  length (d (Path_call (mkPath ShapeAttrs_zero [] f0) c)) = 1 /\
  Path_ShapeAttrs (Path_call p c) = Path_ShapeAttrs p /\
  PathLength (Path_call p c) = PathLength p.
Proof. by destruct c. Qed.

(** X7: the calls of the path builder only append: after any sequence of
    calls the path holds the earlier commands, then exactly one command per
    call in the order of the calls (two calls of the same kind next to each
    other stay two commands), the command a call makes being the same
    whatever came before; the attributes and [PathLength] are untouched. *)
Theorem X7_Path_calls_append_one_command_each (p : Path) (calls : list path_call) :
  let p' := fold_left Path_call calls p in
  d p' = d p ++ flat_map (fun c => d (Path_call (mkPath ShapeAttrs_zero [] f0) c))
                   calls /\
  length (d p') = length (d p) + length calls /\
  Path_ShapeAttrs p' = Path_ShapeAttrs p /\
  PathLength p' = PathLength p.
Proof.
  cbn zeta.
  assert (Hd : forall q, d (fold_left Path_call calls q)
               = d q ++ flat_map (fun c => d (Path_call (mkPath ShapeAttrs_zero [] f0) c))
                          calls).
  { induction calls as [|c calls IH]; intros q.
    - cbn. by rewrite app_nil_r.
    - cbn [fold_left flat_map]. rewrite IH.
      rewrite (proj1 (Path_call_appends q c)). by rewrite <- app_assoc. }
  split; [apply Hd|]. split.
  - rewrite Hd, length_app. f_equal. clear.
    induction calls as [|c calls IH]; [reflexivity|].
    cbn [flat_map]. rewrite length_app, IH. by destruct c.
  - clear Hd. revert p. induction calls as [|c calls IH]; intros p; [done|].
    cbn [fold_left]. destruct (IH (Path_call p c)) as [-> ->].
    by destruct c.
Qed.

Lemma concat_empty_joined (l : list string) : String.concat "" l = joined l.
Proof.
  induction l as [|a [|b l] IH]; [reflexivity|cbn; by rewrite append_empty_r|].
  change (String.concat "" (a :: b :: l)) with (a +:+ String.concat "" (b :: l)).
  by rewrite IH.
Qed.

Lemma spec_separated_short (toks : list string) (count : nat) :
  count + list_sum (map String.length toks) <= 255 ->
  spec_separated 0 (fun _ => 0) count toks = flat_map (fun t => [" "; t]) toks.
Proof.
  revert count. induction toks as [|t toks IH]; intros count Hle; [reflexivity|].
  cbn [spec_separated flat_map app]. rewrite spec_count_zero_sep.
  unfold list_sum in *. cbn [map fold_right] in Hle.
  destruct (Nat.ltb_spec 255 (count + String.length t)) as [Hlt|_]; [lia|].
  rewrite IH; [reflexivity|]. unfold list_sum. lia.
Qed.

Lemma joined_spaced (t : string) (toks : list string) :
  joined (t :: flat_map (fun t' => [" "; t']) toks) = strings_Join (t :: toks) " ".
Proof.
  unfold strings_Join. revert t. induction toks as [|t2 toks IH]; intros t.
  - cbn. by rewrite append_empty_r.
  - change (String.concat " " (t :: t2 :: toks))
      with (t +:+ " " +:+ String.concat " " (t2 :: toks)).
    rewrite <- IH. reflexivity.
Qed.

(** X8: a path whose tokens hold 255 characters or fewer in all is encoded
    on one line: its tokens joined by single spaces, with no line feed. *)
Theorem X8_short_path_is_one_line (attrs : ShapeAttrs) (len : float64)
    (calls : list path_call) :
  let p := fold_left Path_call calls (mkPath attrs [] len) in
  list_sum (map String.length (Path_tokens p)) <= 255 ->
  Path_pathStr p = strings_Join (Path_tokens p) " ".
Proof.
  intros p Hshort.
  rewrite (pathStr_of_one_byte_names p)
    by (apply Path_calls_names; constructor).
  unfold spec_join_tokens. rewrite spec_separated_short by (cbn; lia).
  rewrite concat_empty_joined. destruct (Path_tokens p) as [|t toks]; [reflexivity|].
  cbn [flat_map app tail]. apply joined_spaced.
Qed.

Lemma spec_separated_shape (sep : nat) (restart : string -> nat)
    (toks : list string) (count : nat) :
  exists seps,
    length seps = length toks /\
    Forall (fun s => s = " " \/ s = nl) seps /\
    spec_separated sep restart count toks
    = flat_map (fun st => [fst st; snd st]) (zip seps toks).
Proof.
  revert count. induction toks as [|t toks IH]; intros count.
  - exists []. repeat split; constructor.
  - cbn [spec_separated].
    destruct (255 <? _)%nat;
      [destruct (IH (restart t)) as (seps & Hlen & Hseps & ->); exists (nl :: seps)
      |match goal with
       | |- context [spec_separated sep restart ?c toks] =>
           destruct (IH c) as (seps & Hlen & Hseps & ->)
       end; exists (" " :: seps)];
      (split; [cbn; lia|split; [constructor; auto|reflexivity]]).
Qed.

Lemma joined_separated_length (seps toks : list string) :
  length seps = length toks ->
  Forall (fun s => s = " " \/ s = nl) seps ->
  String.length (joined (flat_map (fun st => [fst st; snd st]) (zip seps toks)))
  = list_sum (map String.length toks) + length toks.
Proof.
  intros Hlen Hseps. revert toks Hlen.
  induction Hseps as [|s seps Hs _ IH]; intros [|t toks] Hlen; try discriminate;
    [reflexivity|].
  cbn [zip zip_with flat_map app fst snd joined fold_right map length].
  fold (joined (flat_map (fun st => [fst st; snd st]) (zip seps toks))).
  rewrite !append_length, IH by (cbn in Hlen; lia).
  unfold list_sum. cbn [fold_right].
  destruct Hs as [-> | ->]; cbn [String.length nl]; lia.
Qed.

(** X9: wrapping only chooses separators: the encoding of a path is its
    first token followed, for each further token in order, by one separator,
    a space or a line feed, and the token; so no token is split, dropped or
    reordered, and the encoding is as long as its tokens together plus one
    character per token after the first. *)
Theorem X9_pathStr_keeps_the_tokens (attrs : ShapeAttrs) (len : float64)
    (calls : list path_call) (t : string) (toks : list string) :
  let p := fold_left Path_call calls (mkPath attrs [] len) in
  Path_tokens p = t :: toks ->
  (exists seps,
     length seps = length toks /\
     Forall (fun s => s = " " \/ s = nl) seps /\
     Path_pathStr p
     = t +:+ joined (flat_map (fun st => [fst st; snd st]) (zip seps toks))) /\
  String.length (Path_pathStr p)
  = list_sum (map String.length (t :: toks)) + length toks.
Proof.
  intros p Htoks.
  assert (Hp : Path_pathStr p = spec_join_tokens 0 (fun _ => 0) (Path_tokens p))
    by (apply pathStr_of_one_byte_names, Path_calls_names; constructor).
  rewrite Hp, Htoks. unfold spec_join_tokens. cbn [spec_separated Nat.eqb].
  match goal with
  | |- context [if ?b then _ else _] =>
      assert (Htail : exists c, tail (if b
                 then nl :: t :: spec_separated 0 (fun _ => 0) 0 toks
                 else " " :: t :: spec_separated 0 (fun _ => 0) (String.length t) toks)
               = t :: spec_separated 0 (fun _ => 0) c toks)
        by (destruct b; eexists; reflexivity)
  end.
  destruct Htail as [c ->].
  destruct (spec_separated_shape 0 (fun _ => 0) toks c) as (seps & Hlen & Hseps & ->).
  rewrite concat_empty_joined.
  change (joined (t :: ?l)) with (t +:+ joined l). split.
  - exists seps. by repeat split.
  - rewrite append_length, (joined_separated_length _ _ Hlen Hseps).
    unfold list_sum. cbn [map fold_right]. lia.
Qed.

End Encoder.

(** ** Further properties: rendering and stores *)

Section Stores.

Context `{Runtime}.

(** X10: what a rendering writes does not depend on the writer: on a store
    built by the package, the rendering of a node hands a fixed sequence of
    strings (the one a writer that never fails receives) to any writer, one
    [Write] each and in order, up to the first [Write] that fails, and
    returns what that [Write] returned, or no error when none fails. *)
Theorem X10_rendering_is_writer_independent (range : map_order) (h : heap)
    (r : ptr) (n : nat) :
  wf_heap h = true ->
  r < length h ->
  exists cs n',
    render range (list string) log_Write (length h) h r [] n = Some (None, cs, n') /\
    forall (W : Type) (Write : W -> string -> option error * W) (w : W),
      exists n'',
        render range W Write (length h) h r w n
        = Some (fst (write_all Write cs w), snd (write_all Write cs w), n'').
Proof.
  intros Hwf Hr.
  destruct (chunks_total range h Hwf (length h) r n Hr) as [[cs n'] Hcs]; [lia|].
  exists cs, n'. split.
  - destruct (render_hands_over range _ log_Write _ _ _ _ _ _ Hcs [] None cs)
      as (m & -> & Hm); [by rewrite write_all_log|]. by rewrite (Hm eq_refl).
  - intros W Write w.
    destruct (render_hands_over range W Write _ _ _ _ _ _ Hcs w
                (fst (write_all Write cs w)) (snd (write_all Write cs w)))
      as (n'' & Hrender & _); [by destruct (write_all Write cs w)|].
    by exists n''.
Qed.

Lemma write_all_never_fails {W : Type} (Write : W -> string -> option error * W)
    (cs : list string) (w : W) :
  (forall w0 s, fst (Write w0 s) = None) -> fst (write_all Write cs w) = None.
Proof.
  intros Hok. revert w. induction cs as [|c cs IH]; intros w; [reflexivity|].
  cbn [write_all]. specialize (Hok w c).
  destruct (Write w c) as [[e|] w1]; [discriminate|apply IH].
Qed.

Lemma write_all_failed {W : Type} (Write : W -> string -> option error * W)
    (cs : list string) (w : W) (e : error) (w' : W) :
  write_all Write cs w = (Some e, w') ->
  exists pre c post w1,
    cs = pre ++ c :: post /\
    write_all Write pre w = (None, w1) /\
    Write w1 c = (Some e, w').
Proof.
  revert w. induction cs as [|c cs IH]; intros w Hw; [discriminate|].
  cbn [write_all] in Hw. destruct (Write w c) as [[e0|] w1] eqn:Hc.
  - injection Hw as <- <-. by exists [], c, cs, w.
  - destruct (IH _ Hw) as (pre & c0 & post & w2 & -> & Hpre & Hc0).
    exists (c :: pre), c0, post, w2. split; [reflexivity|].
    split; [|exact Hc0]. cbn [write_all]. by rewrite Hc.
Qed.

Lemma write_all_passed {W : Type} (Write : W -> string -> option error * W)
    (cs : list string) (w w' : W) :
  write_all Write cs w = (None, w') ->
  forall pre c post, cs = pre ++ c :: post ->
    exists w1 w2, write_all Write pre w = (None, w1) /\ Write w1 c = (None, w2).
Proof.
  intros Hw pre c post ->. rewrite write_all_app in Hw.
  destruct (write_all Write pre w) as [[e|] w1]; [discriminate|].
  cbn [write_all] in Hw. destruct (Write w1 c) as [[e|] w2] eqn:Hc; [discriminate|].
  by exists w1, w2.
Qed.

(** X11: a rendering invents no error and hides none.  On a store built by
    the package, let [cs] be the strings the rendering hands to [Write], in
    order.  When the rendering returns an error, [Write] took the strings
    before some string [c] of [cs] without error, the [Write] of [c]
    returned that very error, and the writer is as this [Write] left it.
    When the rendering returns no error, the strings of [cs] were all
    written and no [Write] of them returned an error.  So on a writer whose
    [Write] never fails the rendering returns no error. *)
Theorem X11_render_errors_come_from_Write (range : map_order) (W : Type)
    (Write : W -> string -> option error * W) (h : heap) (r : ptr) (w : W)
    (n : nat) :
  wf_heap h = true ->
  r < length h ->
  exists cs n0 res w' n',
    render range (list string) log_Write (length h) h r [] n = Some (None, cs, n0) /\
    render range W Write (length h) h r w n = Some (res, w', n') /\
    match res with
    | Some e =>
        exists pre c post w1,
          cs = pre ++ c :: post /\
          write_all Write pre w = (None, w1) /\
          Write w1 c = (Some e, w')
    | None =>
        write_all Write cs w = (None, w') /\
        forall pre c post, cs = pre ++ c :: post ->
          exists w1 w2,
            write_all Write pre w = (None, w1) /\ Write w1 c = (None, w2)
    end /\
    ((forall w0 s, fst (Write w0 s) = None) -> res = None).
Proof.
  intros Hwf Hr.
  destruct (chunks_total range h Hwf (length h) r n Hr) as [[cs m] Hcs]; [lia|].
  destruct (render_hands_over range _ log_Write _ _ _ _ _ _ Hcs [] None cs)
    as (n0 & Hlog & _); [by rewrite write_all_log|].
  pose proof (write_all_never_fails Write cs w) as Hnever.
  destruct (write_all Write cs w) as [res w'] eqn:Hall.
  destruct (render_hands_over range W Write _ _ _ _ _ _ Hcs w res w' Hall)
    as (n' & Hrender & _).
  exists cs, n0, res, w', n'. split; [exact Hlog|]. split; [exact Hrender|]. split.
  - destruct res as [e|].
    + by apply write_all_failed.
    + split; [exact Hall|]. by apply (write_all_passed Write cs w w').
  - exact Hnever.
Qed.

Lemma render_text_frame (range : map_order) (h h' : heap) (lo r : ptr) (n : nat) :
  wf_heap h = true ->
  (forall q, lo < q -> q < length h -> h' !! q = h !! q) ->
  length h <= length h' ->
  lo < r -> r < length h ->
  render_text range h' r n = render_text range h r n.
Proof.
  intros Hwf Hsame Hlen Hlo Hr.
  destruct (chunks_total range h Hwf (length h) r n Hr) as [[cs m] Hcs]; [lia|].
  rewrite (render_text_chunks _ _ _ _ _ _ Hcs).
  apply (render_text_chunks _ _ _ _ cs m).
  apply (chunks_fuel_mono range h' (length h)); [|exact Hlen].
  by apply (chunks_frame range h h' lo).
Qed.

(** X13: a construction call on a container changes the rendering of no
    node allocated after that container: the earlier children of the
    receiver, and everything below them, render as before the call. *)
Theorem X13_construction_leaves_later_nodes_alone (range : map_order) (h : heap)
    (c : ptr) (oc : object) (k' : ctor) (r : ptr) (n : nat) :
  wf_heap h = true ->
  h !! c = Some oc ->
  offers oc k' = true ->
  c < r -> r < length h ->
  exists h',
    construct c k' h = Some (length h, h') /\
    render_text range h' r n = render_text range h r n.
Proof.
  intros Hwf Hc Hoff Hcr Hr. destruct (offers_container _ _ Hoff) as [k Hk].
  eexists. split.
  { rewrite (construct_eq _ _ _ _ Hc Hoff). by apply container_add_eq. }
  apply (render_text_frame range h _ c r n Hwf);
    [|rewrite length_insert, length_app; lia|done|done].
  intros q Hq1 Hq2. apply (lookup_constructed_old h c _ [k']); lia.
Qed.

Lemma flat_map_insert_same {A B : Type} (f : A -> list B) (l : list A) (i : nat)
    (x y : A) :
  l !! i = Some x -> f y = f x -> flat_map f (<[i := y]> l) = flat_map f l.
Proof.
  intros Hi Hf. rewrite <- (take_drop_middle l i x Hi) at 2.
  rewrite insert_take_drop by (by eapply lookup_lt_Some).
  rewrite !flat_map_app. cbn [flat_map]. by rewrite Hf.
Qed.

Lemma object_contents_bound (h : heap) :
  wf_heap h = true -> Forall (fun r => r < length h) (flat_map object_contents h).
Proof.
  intros Hwf. rewrite wf_heap_spec in Hwf. apply Forall_forall. intros r Hr.
  apply list_elem_of_In, in_flat_map in Hr as (o & Ho & Hr).
  apply list_elem_of_In, list_elem_of_lookup in Ho as [i Hi].
  unfold object_contents in Hr.
  destruct (object_container o) as [k|] eqn:Hk; [|by destruct Hr].
  pose proof (Hwf _ _ _ Hi Hk) as Hall. rewrite Forall_forall in Hall.
  apply list_elem_of_In, Hall in Hr. lia.
Qed.

Lemma NoDup_contents_constructed (h : heap) (c : ptr) (oc : object)
    (k : container) (k' : ctor) :
  wf_heap h = true -> h !! c = Some oc -> object_container oc = Some k ->
  NoDup (flat_map object_contents h) ->
  NoDup (flat_map object_contents
           (<[c := object_set_container oc
                     (mkContainer (name k) (contents k ++ [length h]))]>
              (h ++ [ctor_object k']))).
Proof.
  intros Hwf Hc Hk Hnd. pose proof (lookup_lt_Some _ _ _ Hc) as Hlt.
  assert (Hfresh : length h ∉ flat_map object_contents h).
  { intros Hin. pose proof (object_contents_bound h Hwf) as Hbound.
    rewrite Forall_forall in Hbound. apply Hbound in Hin. lia. }
  rewrite insert_app_l by done. rewrite flat_map_app. cbn [flat_map].
  assert (Hnew : object_contents (ctor_object k') = []) by (by destruct k').
  rewrite Hnew, !app_nil_r. rewrite insert_take_drop by done.
  remember (length h) as new eqn:Hnew_eq. clear Hnew_eq.
  rewrite <- (take_drop_middle h c oc Hc) in Hnd, Hfresh.
  rewrite !flat_map_app in *. cbn [flat_map] in *.
  unfold object_contents at 2. rewrite (object_container_set _ _ _ Hk).
  cbn [contents]. unfold object_contents at 2 in Hnd.
  unfold object_contents at 2 in Hfresh. rewrite Hk in Hnd, Hfresh.
  set (A := flat_map object_contents (take c h)) in *.
  set (B := flat_map object_contents (drop (S c) h)) in *.
  assert (Hperm : A ++ (contents k ++ [new]) ++ B
                  ≡ₚ new :: (A ++ contents k ++ B)).
  { rewrite <- app_assoc. cbn [app]. rewrite <- Permutation_middle.
    rewrite (app_assoc A). rewrite <- Permutation_middle.
    by rewrite <- app_assoc. }
  rewrite Hperm. apply NoDup_cons. by split.
Qed.

Lemma api_step_invariant (h h' : heap) (a : api_call) :
  api_step h a = Some h' ->
  wf_heap h = true /\ NoDup (flat_map object_contents h) ->
  wf_heap h' = true /\ NoDup (flat_map object_contents h').
Proof.
  intros Hstep [Hwf Hnd]. destruct a as [w0 h0|c k'|r sc]; cbn [api_step] in Hstep.
  - injection Hstep as <-. split; [by apply wf_heap_NewSVG|].
    unfold NewSVG, alloc. cbn [snd]. rewrite flat_map_app. cbn. by rewrite app_nil_r.
  - destruct (h !! c) as [oc|] eqn:Hc; [|discriminate].
    destruct (offers oc k') eqn:Hoff; [|discriminate].
    destruct (offers_container _ _ Hoff) as [k Hk].
    rewrite (construct_eq _ _ _ _ Hc Hoff), (container_add_eq _ _ _ _ _ Hc Hk) in Hstep.
    injection Hstep as <-. split.
    + exact (wf_heap_constructed h c oc k [k'] Hwf Hc Hk).
    + by apply NoDup_contents_constructed.
  - destruct (h !! r) as [o|] eqn:Ho; [|discriminate]. injection Hstep as <-.
    split; [by apply wf_heap_set_Style|].
    rewrite (flat_map_insert_same _ _ _ o); [exact Hnd|exact Ho|].
    unfold object_contents. by rewrite object_set_Style_container.
Qed.

(** X14: every store built from the empty one by [NewSVG], construction
    calls and calls on Styles is a forest: the contents of a container lie at
    later addresses of the store, no address lies in two contents or twice in
    one (a node has one parent at most and is rendered once under it), and
    the rendering of every node of the store has a result. *)
Theorem X14_built_stores_are_forests (range : map_order) (calls : list api_call)
    (h : heap) :
  api_run calls [] = Some h ->
  wf_heap h = true /\
  NoDup (flat_map object_contents h) /\
  forall r n, r < length h -> is_Some (render_text range h r n).
Proof.
  intros Hrun.
  assert (Hinv : wf_heap h = true /\ NoDup (flat_map object_contents h)).
  { assert (Hgen : forall h0 : heap,
              wf_heap h0 = true /\ NoDup (flat_map object_contents h0) ->
              api_run calls h0 = Some h ->
              wf_heap h = true /\ NoDup (flat_map object_contents h)).
    { clear Hrun. induction calls as [|a calls IH]; intros h0 Hinv Hrun.
      - injection Hrun as <-. exact Hinv.
      - cbn [api_run] in Hrun. destruct (api_step h0 a) as [h1|] eqn:Hstep;
          [|discriminate].
        exact (IH h1 (api_step_invariant _ _ _ Hstep Hinv) Hrun). }
    apply (Hgen []); [|exact Hrun]. split; [reflexivity|constructor]. }
  destruct Hinv as [Hwf Hnd]. split; [exact Hwf|]. split; [exact Hnd|].
  intros r n Hr.
  destruct (chunks_total range h Hwf (length h) r n Hr) as [[cs m] Hcs]; [lia|].
  rewrite (render_text_chunks _ _ _ _ _ _ Hcs). by eexists.
Qed.

End Stores.

(** ** Further properties: attributes of the nodes *)

Section Attributes.

Context `{Runtime}.

(** X15: the attribute sequence of every node starts with the same three
    fragments: that of its Style; then nothing, or
    [externalResourcesRequired] with the quoted text [true] (the text [false]
    is never written); then the class string as it is, with no [class=]
    around it.  For every node but the [svg] element the fragment of the
    Transform comes fourth, and it is never empty; the [svg] element has six
    fragments of its own instead. *)
Theorem X15_attribute_sequences_start_alike (range : map_order) (o : object)
    (n : nat) :
  exists own,
    fst (object_attrStrings range o n) =
      [fst (Style_attrString range (BaseAttrs_Style (object_BaseAttrs o)) n);
       (if ExternalResourcesRequired (object_BaseAttrs o)
        then "externalResourcesRequired=" +:+ dq +:+ "true" +:+ dq
        else "");
       Class (object_BaseAttrs o)] ++ own /\
    match o with
    | OSVG _ => length own = 6
    | _ => exists items own',
             own = ("transform=" +:+ dq +:+ strings_Join items " " +:+ dq) :: own'
    end.
Proof.
  assert (Hext : forall a : BaseAttrs,
            (if ExternalResourcesRequired a
             then boolAttr "externalResourcesRequired" (ExternalResourcesRequired a)
             else "")
            = (if ExternalResourcesRequired a
               then "externalResourcesRequired=" +:+ dq +:+ "true" +:+ dq
               else "")).
  { intros a. by destruct (ExternalResourcesRequired a). }
  destruct o; cbn [object_attrStrings object_BaseAttrs];
    unfold SVG_attrStrings, Group_attrStrings, Circle_attrStrings,
      Ellipse_attrStrings, Rect_attrStrings, Polygon_attrStrings,
      Polyline_attrStrings, Line_attrStrings, Path_attrStrings,
      exec_bind, exec_ret;
    rewrite ?ShapeAttrs_attrStrings_eq; cbn [fst snd];
    rewrite BaseAttrs_attrStrings_eq, Hext; cbn [fst snd app];
    eexists; (split; [reflexivity|]);
    solve [reflexivity | eexists _, _; reflexivity].
Qed.

(** X16: what a node renders to right after its construction, argument by
    argument: each number shows under the attribute name of its parameter
    ([Rect] and [SVG] take [x, y, w, h] and write [width, height, x, y];
    [Line] takes and writes [x1, y1, x2, y2]); the three unset fragments
    leave their spaces, the Transform shows with an empty value, a new path
    has an empty [d], and a new container closes right after it opens. *)
Theorem X16_text_of_fresh_nodes (range : map_order) :
  let q := fun (name : string) (v : float64) => " " +:+ floatAttr name v in
  let shape := fun (tag own : string) =>
    "<" +:+ tag +:+ "    transform=" +:+ dq +:+ dq +:+ own +:+ "/>" in
  let svg := fun (w h x y : float64) =>
    "<svg    " +:+ q "width" w +:+ q "height" h +:+ q "x" x +:+ q "y" y
    +:+ " " +:+ stringAttr "xmlns" "http://www.w3.org/2000/svg" +:+ ">"
    +:+ "</svg>" in
  (forall cx cy r,
     ctor_text range (NewCircle cx cy r)
     = shape "circle" (q "cx" cx +:+ q "cy" cy +:+ q "r" r)) /\
  (forall cx cy rx ry,
     ctor_text range (NewEllipse cx cy rx ry)
     = shape "ellipse" (q "cx" cx +:+ q "cy" cy +:+ q "rx" rx +:+ q "ry" ry)) /\
  (forall x y w h,
     ctor_text range (NewRect x y w h)
     = shape "rect" (q "width" w +:+ q "height" h +:+ q "x" x +:+ q "y" y)) /\
  (forall x1 y1 x2 y2,
     ctor_text range (NewLine x1 y1 x2 y2)
     = shape "line" (q "x1" x1 +:+ q "y1" y1 +:+ q "x2" x2 +:+ q "y2" y2)) /\
  (forall pts,
     ctor_text range (NewPolygon pts) = shape "polygon" (" " +:+ points_attr pts)) /\
  (forall pts,
     ctor_text range (NewPolyline pts) = shape "polyline" (" " +:+ points_attr pts)) /\
  ctor_text range NewPath = shape "path" (" d=" +:+ dq +:+ dq) /\
  (forall x y w h, ctor_text range (NewSVGChild x y w h) = svg w h x y) /\
  ctor_text range NewGroup = "<g    transform=" +:+ dq +:+ dq +:+ ">" +:+ "</g>" /\
  (forall w h n,
     render_text range (snd (NewSVG w h [])) 0 n = Some (svg w h f0 f0)).
Proof.
  cbn zeta.
  repeat match goal with |- _ /\ _ => split end; intros; rewrite ?ctor_text_eq;
    unfold ctor_chunks, render_text; cbn;
    unfold floatAttr, stringAttr, points_attr; rewrite ?append_assoc; reflexivity.
Qed.

(** X17: the [points] attribute of a polygon or polyline holds the points
    in the order given, each as [x,y], separated by single spaces, none
    dropped; with no point the attribute is there with an empty value.  The
    two kinds have the same attribute sequence and differ in the tag only. *)
Theorem X17_points_keep_their_order (pts : list Point) :
  points_attr pts
    = "points=" +:+ dq +:+ strings_Join (map Point_coordString pts) " " +:+ dq /\
  points_attr [] = "points=" +:+ dq +:+ dq /\
  forall (range : map_order) (a : ShapeAttrs) (n : nat),
    Polyline_attrStrings range (mkPolyline a pts) n
    = Polygon_attrStrings range (mkPolygon a pts) n.
Proof.
  split; [|split; reflexivity].
  unfold points_attr, stringAttr.
  rewrite (fold_left_append (fun pt => [Point_coordString pt])). cbn [app].
  assert (Hmap : flat_map (fun pt => [Point_coordString pt]) pts
                 = map Point_coordString pts)
    by (induction pts as [|pt pts IH]; cbn; congruence).
  by rewrite Hmap.
Qed.

End Attributes.

(** ** The properties at the concrete trees and paths *)

#[local] Existing Instance Ints.

(** *** C1 *)

(** C1 as the specification words it (the count restarting at the length of
    the token that opens the new line) fails on a path of 511 closepath
    commands, whether or not the separators count: the code opens the second
    line at the 256th token and, counting from zero there, keeps the 511th
    token on it, where the specification opens a third line (and opens the
    second one much earlier if the separators count). *)
Lemma C1_counterexample :
  Path_pathStr (ex_closes 511)
  <> spec_join_tokens 0 String.length (Path_tokens (ex_closes 511)) /\
  Path_pathStr (ex_closes 511)
  <> spec_join_tokens 1 String.length (Path_tokens (ex_closes 511)).
Proof.
  split; intros Heq; apply String.eqb_eq in Heq; vm_compute in Heq; discriminate.
Qed.

Lemma C1_witness :
  Path_pathStr ex_path = spec_join_tokens 0 (fun _ => 0) (Path_tokens ex_path) /\
  Path_tokens ex_path
    = ["M"; "1"; "2"; "3"; "4"; "c"; "1"; "2"; "3"; "4"; "5"; "6"; "z"] /\
  exists rest, Path_pathStr ex_path = "M" +:+ rest.
Proof.
  destruct (C1_pathStr_wraps_and_restarts_at_zero (H := Ints) ShapeAttrs_zero 0%Z
              ex_path_calls) as [Hjoin Hfirst].
  split; [exact Hjoin|]. split; [reflexivity|].
  exact (Hfirst "M" _ eq_refl).
Defined.

(** *** C2 *)

(** C2 fails on the code: after [Set(0, 1, 2, 3)] the fragment repeats the
    first number in the place of the second. *)
Theorem C2_ViewBox_fragment_repeats_minX :
  ViewBox_attrString ex_viewBox = "viewBox=" +:+ dq +:+ "0 0 2 3" +:+ dq /\
  ViewBox_attrString ex_viewBox <> "viewBox=" +:+ dq +:+ "0 1 2 3" +:+ dq.
Proof.
  split; [reflexivity|]. intros Heq. apply String.eqb_eq in Heq.
  vm_compute in Heq. discriminate.
Qed.

(** *** C3 *)

(** C3 as the specification words it fails on [NewSVG(1, 1)]: its four empty
    fragments are not filtered out, each leaves its separating space in the
    tag. *)
Lemma C3_counterexample :
  let attrs := fst (object_attrStrings order_id ex_root_object 0) in
  ex_root !! 0 = Some ex_root_object /\
  render_text order_id ex_root 0 0
    <> Some ("<svg " +:+ spec_join_attrs attrs +:+ ">" +:+ "</svg>") /\
  exists rest, render_text order_id ex_root 0 0 = Some ("<svg     width=" +:+ rest).
Proof.
  split; [reflexivity|]. split.
  - intros Heq. vm_compute in Heq. discriminate.
  - eexists. vm_compute. reflexivity.
Qed.

Lemma C3_witness :
  let o := ex_circle_object in
  wf_heap ex_tree = true /\
  ex_tree !! 1 = Some o /\
  let attrs := fst (object_attrStrings order_id o 0) in
  length attrs = 7 /\
  String.length (strings_Join attrs " ")
    = list_sum (map String.length attrs) + 6 /\
  exists rest,
    render_text order_id ex_tree 1 0 =
    Some ("<" +:+ "circle" +:+ " " +:+ strings_Join attrs " " +:+ "/>" +:+ rest).
Proof.
  intros o. split; [reflexivity|]. split; [reflexivity|].
  exact (C3_fragments_are_joined_unfiltered order_id ex_tree 1 o 0 eq_refl eq_refl).
Defined.

(** *** C4 *)

(** C4 fails on the code for a Style of two properties: two renderings of the
    same tree, one after the other in one execution, differ when the second
    map loop runs in another order than the first. *)
Lemma C4_counterexample :
  exists out1 n1 out2 n2,
    SVG_RenderFragment order_alt string buffer_Write ex_styled_twice 0 "" 0
      = Some (None, out1, n1) /\
    SVG_RenderFragment order_alt string buffer_Write ex_styled_twice 0 "" n1
      = Some (None, out2, n2) /\
    out1 <> out2.
Proof.
  eexists _, _, _, _. split; [vm_compute; reflexivity|].
  split; [vm_compute; reflexivity|].
  intros Heq. apply String.eqb_eq in Heq. vm_compute in Heq. discriminate.
Qed.

Lemma C4_witness :
  wf_heap ex_mixed = true /\
  subtree_small (length ex_mixed) ex_mixed 1 = true /\
  subtree_small (length ex_mixed) ex_mixed 0 = false /\
  1 < length ex_mixed /\
  exists out,
    render_text order_id ex_mixed 1 0 = Some out /\
    render_text order_alt ex_mixed 1 1 = Some out.
Proof.
  assert (Hr : 1 < length ex_mixed) by (vm_compute; lia).
  split; [reflexivity|]. split; [reflexivity|]. split; [reflexivity|].
  split; [exact Hr|].
  exact (C4_renderings_agree_when_styles_hold_one_property
           order_id order_alt ex_mixed 1 0 1 eq_refl eq_refl Hr).
Defined.

(** *** C5 *)

Lemma C5_witness :
  let oc := ex_root_object in
  wf_heap ex_root = true /\
  ex_root !! 0 = Some oc /\
  object_container oc = Some (mkContainer "svg" []) /\
  Forall (fun k' => offers oc k' = true) ex_calls /\
  exists h' old,
    construct_all 0 ex_calls ex_root = Some ([1; 2; 3; 4; 5], h') /\
    contents_at h' 0 = [1; 2; 3; 4; 5] /\
    render_text order_id h' 0 0 =
      Some (("<svg " +:+ strings_Join (fst (object_attrStrings order_id oc 0)) " "
             +:+ ">")
            +:+ old +:+ joined (map (ctor_text order_id) ex_calls) +:+ "</svg>").
Proof.
  intros oc.
  assert (Hoff : Forall (fun k' => offers oc k' = true) ex_calls)
    by (repeat constructor).
  split; [reflexivity|]. split; [reflexivity|]. split; [reflexivity|].
  split; [exact Hoff|].
  destruct (C5_children_render_in_call_order order_id ex_root 0 oc
              (mkContainer "svg" []) ex_calls 0 eq_refl eq_refl eq_refl Hoff)
    as (h' & old & Hall & Hcontents & _ & _ & Hrender & _).
  exists h', old. split; [exact Hall|]. split; [exact Hcontents|exact Hrender].
Defined.

(** *** C6 *)

(** C6 as the specification words it fails on the code for a tree with a
    Style of two properties: a fragment rendering and then a full rendering
    of the same tree, in one execution whose second map loop runs in another
    order than the first, give a document that is not the declaration
    followed by the fragment. *)
Lemma C6_counterexample :
  exists frag n1 full n2,
    SVG_RenderFragment order_alt string buffer_Write ex_styled_twice 0 "" 0
      = Some (None, frag, n1) /\
    SVG_Render order_alt string buffer_Write ex_styled_twice 0 "" n1
      = Some (None, full, n2) /\
    full <> "<?xml version=" +:+ dq +:+ "1.0" +:+ dq +:+ "?>" +:+ frag.
Proof.
  eexists _, _, _, _. split; [vm_compute; reflexivity|].
  split; [vm_compute; reflexivity|].
  intros Heq. apply String.eqb_eq in Heq. vm_compute in Heq. discriminate.
Qed.

Lemma C6_witness :
  wf_heap ex_tree = true /\
  (exists v, ex_tree !! 0 = Some (OSVG v)) /\
  subtree_small (length ex_tree) ex_tree 0 = true /\
  exists out n1' n2',
    SVG_RenderFragment order_id string buffer_Write ex_tree 0 "" 0
      = Some (None, "" +:+ out, n1') /\
    SVG_Render order_alt string buffer_Write ex_tree 0 "" 1
      = Some (None, "" +:+ "<?xml version=" +:+ dq +:+ "1.0" +:+ dq +:+ "?>" +:+ out,
              n2').
Proof.
  assert (Hv : exists v, ex_tree !! 0 = Some (OSVG v)) by (eexists; reflexivity).
  split; [reflexivity|]. split; [exact Hv|]. split; [reflexivity|].
  destruct Hv as [v Hv].
  exact (proj2 (C6_Render_prefixes_the_declaration_to_the_fragment ex_tree 0 v
                  eq_refl Hv) eq_refl order_id order_alt "" "" 0 1).
Defined.

(** *** C7 *)

Lemma C7_witness :
  let Write := quota_Write "short write" in
  let cs := match render order_id (list string) log_Write
                     (length ex_tree) ex_tree 0 [] 0 with
            | Some (_, l, _) => l
            | None => []
            end in
  let pre := take 1 cs in
  let c := default "" (cs !! 1) in
  let post := drop 2 cs in
  let w1 := snd (write_all Write pre (100, "")) in
  let w2 := snd (Write w1 c) in
  wf_heap ex_tree = true /\
  render order_id (list string) log_Write (length ex_tree) ex_tree 0 [] 0
    = Some (None, pre ++ c :: post, 0) /\
  write_all Write pre (100, "") = (None, w1) /\
  Write w1 c = (Some "short write", w2) /\
  exists n'',
    render order_id (nat * string) Write (length ex_tree) ex_tree 0 (100, "") 0
    = Some (Some "short write", w2, n'').
Proof.
  intros Write cs pre c post w1 w2.
  assert (Hlog : render order_id (list string) log_Write (length ex_tree) ex_tree 0 [] 0
                 = Some (None, pre ++ c :: post, 0)) by (vm_compute; reflexivity).
  assert (Hpre : write_all Write pre (100, "") = (None, w1))
    by (vm_compute; reflexivity).
  assert (Hc : Write w1 c = (Some "short write", w2)) by (vm_compute; reflexivity).
  split; [reflexivity|]. split; [exact Hlog|]. split; [exact Hpre|].
  split; [exact Hc|].
  exact (C7_write_failure_is_returned_at_once order_id (nat * string) Write
           ex_tree 0 (100, "") 0 pre c post 0 w1 "short write" w2
           eq_refl Hlog Hpre Hc).
Defined.

(** *** C10 *)

Lemma C10_witness :
  wf_heap ex_tree = true /\
  ex_tree !! 1 = Some ex_circle_object /\
  BaseAttrs_Style (object_BaseAttrs ex_circle_object) = mkStyle None /\
  exists rest rest',
    render_text order_id ex_tree 1 0
      = Some ("<" +:+ "circle" +:+ " " +:+ " " +:+ rest) /\
    render_text order_id
        (<[1 := object_set_Style ex_circle_object
                  (snd (Style_Get (mkStyle None) "fill"))]> ex_tree) 1 0
      = Some ("<" +:+ "circle" +:+ " " +:+ ("style=" +:+ dq +:+ dq)
              +:+ " " +:+ rest').
Proof.
  split; [reflexivity|]. split; [reflexivity|]. split; [reflexivity|].
  exact (proj2 (proj2 (proj2
    (C10_Get_allocates_and_changes_rendering order_id "fill" 0 ex_tree 1
       ex_circle_object eq_refl eq_refl eq_refl)))).
Defined.

(** *** C8 *)

(** C8 as the specification words it fails on a Style whose map [Get] has
    allocated: the Style holds no property and yet yields a fragment. *)
Lemma C8_counterexample :
  let s := snd (Style_Get (mkStyle None) "fill") in
  Style_valueMap s = Some ∅ /\
  fst (Style_attrString order_id s 0) <> "".
Proof. split; [reflexivity|]. vm_compute. discriminate. Qed.

Lemma C8_witness :
  let s := Style_Set (mkStyle None) "fill" "red" in
  Style_valueMap s = Some {[ "fill" := "red" ]} /\
  exists kvs, kvs ≡ₚ map_to_list ({[ "fill" := "red" ]} : gmap string string) /\
    fst (Style_attrString order_id s 0) =
    "style=" +:+ dq
    +:+ strings_Join (map (fun kv => fst kv +:+ ":" +:+ snd kv) kvs) ";"
    +:+ dq.
Proof.
  intros s. split; [reflexivity|].
  exact (proj2 (C8_fragment_empty_iff_map_nil order_id s 0) _ eq_refl).
Defined.

(** *** C9 *)

(** C9 as the specification words it fails for a group inside a group:
    [Group] is a method of [*SVG] only, so the group at address 3 of the
    tree, which offers the methods of [container], offers no [Group]. *)
Lemma C9_counterexample :
  (exists g, ex_tree !! 3 = Some (OGroup g)) /\
  is_Some (construct 3 NewPath ex_tree) /\
  construct 3 NewGroup ex_tree = None.
Proof.
  split; [eexists; reflexivity|]. split; [eexists; reflexivity|reflexivity].
Qed.

Lemma C9_witness :
  wf_heap ex_tree = true /\
  (exists oc, ex_tree !! 2 = Some oc /\ offers oc NewGroup = true) /\
  exists h',
    construct 2 NewGroup ex_tree = Some (6, h') /\
    ex_tree !! 6 = None /\
    h' !! 6 = Some (OGroup (mkGroup ShapeAttrs_zero (mkContainer "g" []))) /\
    contents_at h' 2 = [6] /\
    wf_heap h' = true.
Proof.
  assert (Hoc : exists oc, ex_tree !! 2 = Some oc /\ offers oc NewGroup = true)
    by (eexists; split; reflexivity).
  split; [reflexivity|]. split; [exact Hoc|]. destruct Hoc as (oc & Hoc & Hoff).
  destruct (C9_offered_call_appends_fresh_child order_id ex_tree 2 oc NewGroup 0
              eq_refl Hoc Hoff)
    as (h' & k & old & _ & Hcall & Hfree & Hnew & Hcontents & _ & Hwf & _).
  exists h'. split; [exact Hcall|]. split; [exact Hfree|]. split; [exact Hnew|].
  split; [exact Hcontents|exact Hwf].
Defined.

(** *** X1, X2, X18 *)

Lemma X1_witness :
  "stroke" <> "fill" /\
  valueMap_Get (valueMap_Set None "fill" "red") "fill"
    = ("red", valueMap_Set None "fill" "red") /\
  fst (valueMap_Get (valueMap_Set None "fill" "red") "stroke")
    = fst (valueMap_Get None "stroke").
Proof.
  assert (Hne : "stroke" <> "fill") by discriminate.
  split; [exact Hne|]. exact (X1_Get_after_Set None "fill" "red" "stroke" Hne).
Defined.

Lemma X2_witness :
  let m := valueMap_Set (valueMap_Set None "fill" "red") "stroke" "blue" in
  "stroke" <> "fill" /\
  fst (valueMap_Get (valueMap_Unset m "fill") "fill") = "" /\
  fst (valueMap_Get (valueMap_Unset m "fill") "stroke")
    = fst (valueMap_Get m "stroke").
Proof.
  intros m. assert (Hne : "stroke" <> "fill") by discriminate.
  split; [exact Hne|].
  destruct (X2_Get_of_missing_key m "fill" "stroke" Hne)
    as (_ & Hgone & _ & Hother & _).
  split; [exact Hgone|exact Hother].
Defined.

Lemma X18_witness :
  let m : valueMap := valueMap_Set (valueMap_Set None "stroke" "blue") "fill" "red" in
  let m' : valueMap := valueMap_Set None "stroke" "blue" in
  "fill" <> "stroke" /\
  (forall m0, m' = Some m0 -> m0 !! "fill" = None) /\
  valueMap_Set (valueMap_Set m "fill" "green") "stroke" "black"
    = valueMap_Set (valueMap_Set m "stroke" "black") "fill" "green" /\
  valueMap_Unset (valueMap_Set m' "fill" "red") "fill"
    = Some (match m' with None => ∅ | Some m0 => m0 end).
Proof.
  intros m m'. assert (Hne : "fill" <> "stroke") by discriminate.
  assert (Hfree : forall m0, m' = Some m0 -> m0 !! "fill" = None).
  { intros m0 Hm. injection Hm as <-. by rewrite insert_empty, lookup_singleton_ne. }
  split; [exact Hne|]. split; [exact Hfree|]. split.
  - exact (proj1 (X18_Set_commutes_and_Unset_undoes m "fill" "stroke" "green" "black")
             Hne).
  - exact (proj2 (X18_Set_commutes_and_Unset_undoes m' "fill" "stroke" "red" "blue")
             Hfree).
Defined.

(** *** X3 *)

Lemma X3_witness :
  let calls := [CallSet "fill" "red"; CallUnset "fill"] in
  calls <> [] /\
  Style_valueMap (fold_left Style_call calls (mkStyle None)) <> None /\
  fst (Style_attrString order_id (fold_left Style_call calls (mkStyle None)) 0) <> "".
Proof.
  intros calls. assert (Hcalls : calls <> []) by discriminate.
  split; [exact Hcalls|].
  exact (X3_Style_stays_allocated order_id (mkStyle None) calls 0 Hcalls).
Defined.

(** *** X8, X9 *)

Lemma X8_witness :
  list_sum (map String.length (Path_tokens ex_path)) <= 255 /\
  Path_pathStr ex_path = strings_Join (Path_tokens ex_path) " ".
Proof.
  assert (Hshort : list_sum (map String.length (Path_tokens ex_path)) <= 255)
    by (vm_compute; lia).
  split; [exact Hshort|].
  exact (X8_short_path_is_one_line ShapeAttrs_zero 0%Z ex_path_calls Hshort).
Defined.

Lemma X9_witness :
  let t := default "" (head (Path_tokens ex_path)) in
  let toks := tail (Path_tokens ex_path) in
  Path_tokens ex_path = t :: toks /\
  String.length (Path_pathStr ex_path)
  = list_sum (map String.length (t :: toks)) + length toks.
Proof.
  intros t toks.
  assert (Htoks : Path_tokens ex_path = t :: toks) by (vm_compute; reflexivity).
  split; [exact Htoks|].
  exact (proj2 (X9_pathStr_keeps_the_tokens ShapeAttrs_zero 0%Z ex_path_calls
                  t toks Htoks)).
Defined.

(** *** X10, X11, X12 *)

Lemma X10_witness :
  wf_heap ex_tree = true /\
  2 < length ex_tree /\
  exists cs n',
    render order_id (list string) log_Write (length ex_tree) ex_tree 2 [] 0
      = Some (None, cs, n') /\
    exists n'',
      render order_id (nat * string) (quota_Write "short write")
        (length ex_tree) ex_tree 2 (1, "") 0
      = Some (fst (write_all (quota_Write "short write") cs (1, "")),
              snd (write_all (quota_Write "short write") cs (1, "")), n'').
Proof.
  assert (Hr : 2 < length ex_tree) by (vm_compute; lia).
  split; [reflexivity|]. split; [exact Hr|].
  destruct (X10_rendering_is_writer_independent order_id ex_tree 2 0 eq_refl Hr)
    as (cs & n' & Hlog & Hany).
  exists cs, n'. split; [exact Hlog|].
  exact (Hany (nat * string)%type (quota_Write "short write") (1, "")).
Defined.

Lemma X11_witness :
  let Write := quota_Write "short write" in
  wf_heap ex_tree = true /\
  0 < length ex_tree /\
  exists cs pre c post w1 w' n',
    render order_id (list string) log_Write (length ex_tree) ex_tree 0 [] 0
      = Some (None, cs, 0) /\
    render order_id (nat * string) Write (length ex_tree) ex_tree 0 (100, "") 0
      = Some (Some "short write", w', n') /\
    cs = pre ++ c :: post /\
    write_all Write pre (100, "") = (None, w1) /\
    Write w1 c = (Some "short write", w').
Proof.
  intros Write. assert (Hr : 0 < length ex_tree) by (vm_compute; lia).
  split; [reflexivity|]. split; [exact Hr|].
  destruct (X11_render_errors_come_from_Write order_id (nat * string) Write
              ex_tree 0 (100, "") 0 eq_refl Hr)
    as (cs & n0 & res & w' & n' & Hlog & Hrender & Hres & _).
  assert (Hfails : exists e w0 m,
            render order_id (nat * string) Write (length ex_tree) ex_tree 0 (100, "") 0
            = Some (Some e, w0, m) /\ e = "short write")
    by (eexists _, _, _; split; vm_compute; reflexivity).
  destruct Hfails as (e & w0 & m & Hfails & He). rewrite Hrender in Hfails.
  injection Hfails as -> -> ->. subst e.
  destruct Hres as (pre & c & post & w1 & Hcs & Hpre & Hc).
  assert (Hn0 : n0 = 0).
  { assert (Hlog0 : exists cs0,
              render order_id (list string) log_Write (length ex_tree) ex_tree 0 [] 0
              = Some (None, cs0, 0)) by (eexists; vm_compute; reflexivity).
    destruct Hlog0 as [cs0 Hlog0]. rewrite Hlog in Hlog0. by injection Hlog0. }
  subst n0. by exists cs, pre, c, post, w1, w0, m.
Defined.

Lemma X12_witness :
  let Write := quota_Write "short write" in
  let cs := match SVG_Render order_id (list string) log_Write ex_tree 0 [] 0 with
            | Some (_, l, _) => l
            | None => []
            end in
  let c := default "" (cs !! 0) in
  let post := drop 1 cs in
  let w2 := snd (Write (0, "") c) in
  wf_heap ex_tree = true /\
  SVG_Render order_id (list string) log_Write ex_tree 0 [] 0
    = Some (None, [] ++ c :: post, 0) /\
  write_all Write [] (0, "") = (None, (0, "")) /\
  Write (0, "") c = (Some "short write", w2) /\
  exists n'',
    SVG_Render order_id (nat * string) Write ex_tree 0 (0, "") 0
    = Some (Some "short write", w2, n'').
Proof.
  intros Write cs c post w2.
  assert (Hlog : SVG_Render order_id (list string) log_Write ex_tree 0 [] 0
                 = Some (None, [] ++ c :: post, 0)) by (vm_compute; reflexivity).
  assert (Hc : Write (0, "") c = (Some "short write", w2)) by (vm_compute; reflexivity).
  split; [reflexivity|]. split; [exact Hlog|]. split; [reflexivity|].
  split; [exact Hc|].
  exact (SVG_Render_aborts_at_failed_write order_id (nat * string) Write
           ex_tree 0 (0, "") 0 [] c post 0 (0, "") "short write" w2
           eq_refl Hlog eq_refl Hc).
Defined.

(** *** X13, X14 *)

Lemma X13_witness :
  wf_heap ex_tree = true /\
  (exists oc, ex_tree !! 0 = Some oc /\ offers oc NewPath = true) /\
  0 < 2 /\ 2 < length ex_tree /\
  exists h',
    construct 0 NewPath ex_tree = Some (length ex_tree, h') /\
    render_text order_id h' 2 0 = render_text order_id ex_tree 2 0.
Proof.
  assert (Hoc : exists oc, ex_tree !! 0 = Some oc /\ offers oc NewPath = true)
    by (eexists; split; reflexivity).
  assert (Hr : 2 < length ex_tree) by (vm_compute; lia).
  split; [reflexivity|]. split; [exact Hoc|]. split; [lia|]. split; [exact Hr|].
  destruct Hoc as (oc & Hoc & Hoff).
  exact (X13_construction_leaves_later_nodes_alone order_id ex_tree 0 oc NewPath 2 0
           eq_refl Hoc Hoff (Nat.lt_0_succ 1) Hr).
Defined.

Lemma X14_witness :
  api_run ex_api_calls [] = Some ex_built /\
  length ex_built = 4 /\
  wf_heap ex_built = true /\
  NoDup (flat_map object_contents ex_built) /\
  forall r n, r < length ex_built -> is_Some (render_text order_id ex_built r n).
Proof.
  assert (Hrun : api_run ex_api_calls [] = Some ex_built) by (vm_compute; reflexivity).
  split; [exact Hrun|]. split; [reflexivity|].
  exact (X14_built_stores_are_forests order_id ex_api_calls ex_built Hrun).
Defined.
